(** * Voice session engine of [src/App.tsx]

    A shallow embedding of the session logic of the [App] component: the
    teardown routine [cleanupSession], the tool handler
    [handleGenerateImage], [startSession] and the channel callbacks
    [onmessage], [onerror] and [onclose].

    The component keeps its state in React state cells and in refs; the
    embedding gathers them in one record [State] and threads it through a
    small monad that also records the calls made on the outside world
    (devices, channel, image service, console) and carries JavaScript
    exceptions.

    Conventions.
    - A JavaScript string is the list of its UTF-16 code units, which is
      what [String.prototype.trim] and [+=] work on.
    - Times ([AudioContext.currentTime], [AudioBuffer.duration], the
      cursor [nextStartTimeRef]) are counted exactly, in frames of the
      24 kHz output context; both the clock and a buffer's duration are a
      frame count divided by that rate.  Rounding of doubles is not
      modelled.
    - An [async] handler is run to completion before the next event is
      taken: what the handler awaits (the decoded buffer, the image
      service's answer) is supplied by the environment record [Env], and
      the interleaving of two handlers at an [await] is not modelled.
      The one exception is [startSession], which is also given in two
      halves around the wait of line 260, so that an event handled during
      that wait can be stated.
    - A function call is taken with its [args] and their [prompt]
      present.
    - Objects of the platform (streams, contexts, source nodes, the
      channel) are handles; a call on one is recorded in the trace.
    - The callback given to [sessionPromise.then], the promise being
      resolved by the time a message arrives, is recorded where it is
      registered.
    - Of [startSession], the two [resume()] calls and the wiring of the
      capture pipeline in [onopen] are left out. *)

From Stdlib Require Import NArith PeanoNat List Bool String Ascii Lia.
From Stdlib Require DecimalString DecimalN.
Import ListNotations.

Set Implicit Arguments.
Open Scope N_scope.

(* ================================================================= *)
(** ** JavaScript strings *)

Module JsString.

Definition code_unit := N.
Definition jsstring := list code_unit.

(** An ASCII literal as code units. *)
Definition lit (s : string) : jsstring :=
  map N_of_ascii (list_ascii_of_string s).

Fixpoint eqb (a b : jsstring) : bool :=
  match a, b with
  | [], [] => true
  | x :: a', y :: b' => N.eqb x y && eqb a' b'
  | _, _ => false
  end.

(** Truthiness of a string: every string but the empty one. *)
Definition truthy (s : jsstring) : bool :=
  match s with [] => false | _ :: _ => true end.

(** ECMAScript WhiteSpace and LineTerminator code points, the ones
    [trim] removes. *)
Definition is_white_space (c : code_unit) : bool :=
  (9 <=? c) && (c <=? 13)
  || (c =? 32) || (c =? 160) || (c =? 5760)
  || (8192 <=? c) && (c <=? 8202)
  || (c =? 8232) || (c =? 8233) || (c =? 8239) || (c =? 8287)
  || (c =? 12288) || (c =? 65279).

Fixpoint trimStart (s : jsstring) : jsstring :=
  match s with
  | [] => []
  | c :: s' => if is_white_space c then trimStart s' else s
  end.

Definition trimEnd (s : jsstring) : jsstring :=
  rev (trimStart (rev s)).

Definition trim (s : jsstring) : jsstring := trimEnd (trimStart s).

End JsString.
Import JsString.

(* ================================================================= *)
(** ** Messages of the channel and of the image service *)

Definition handle := nat.

(** A [Part] of a content: text or inline data (the payload of
    [inlineData.data]). *)
Record Part := mkPart {
  partText : option jsstring;
  inlineData : option jsstring
}.

Record FunctionCall := mkFunctionCall {
  fc_id : jsstring;
  fc_name : jsstring;
  fc_prompt : jsstring          (* fc.args.prompt *)
}.

Record ServerContent := mkServerContent {
  inputTranscription : option jsstring;    (* its [text] *)
  outputTranscription : option jsstring;   (* its [text] *)
  turnComplete : bool;
  modelTurn : option (list Part);          (* its [parts] *)
  interrupted : bool
}.

Record LiveServerMessage := mkMessage {
  toolCall : option (list FunctionCall);   (* its [functionCalls] *)
  serverContent : option ServerContent
}.

(** What [ai.models.generateContent] answers: a rejection, or a response
    whose candidates each carry the parts of their content. *)
Inductive GenResult :=
| GenRejected
| GenResponse (candidates : list (list Part)).

(* ================================================================= *)
(** ** The outside world *)

(** Calls made on the world, in the order they are made. *)
Inductive Effect :=
| MicOpen (stream : handle)               (* getUserMedia resolved *)
| ContextOpen (ctx : handle)              (* new AudioContext *)
| ChannelOpen (ch : handle)               (* ai.live.connect resolved *)
| ChannelClose (ch : handle)              (* session.close() *)
| TrackStop (stream : handle)             (* track.stop() on each track *)
| ContextClose (ctx : handle)             (* ctx.close() *)
| SourceStart (src : handle) (when duration : N)   (* source.start(when) *)
| SourceStop (src : handle)               (* source.stop() *)
| GenerateContent (prompt : jsstring)     (* ai.models.generateContent *)
| SendToolResponse (id name result : jsstring)
| ConsoleError (msg : jsstring).

(** What the environment answers while one event is handled. *)
Record Env := mkEnv {
  now : N;                                (* outCtx.currentTime *)
  decodeAudio : jsstring -> option N;     (* decodeAudioData (decode data):
                                             the buffer's duration, [None]
                                             when either of them throws *)
  generateContent : jsstring -> GenResult;
  throws : Effect -> bool;                (* does this close/stop call throw
                                             (or its promise reject)? *)
  getUserMedia : option handle;           (* [None]: permission denied *)
  newContexts : handle * handle;          (* input and output context *)
  connect : option handle                 (* [None]: connection failed *)
}.

(* ================================================================= *)
(** ** State of the component *)

Inductive Role := user | model.

Record Entry := mkEntry { type : Role; text : jsstring }.

Record State := mkState {
  isActive : bool;
  isConnecting : bool;
  transcripts : list Entry;
  error : option jsstring;
  generatedImage : option jsstring;
  isGeneratingImage : bool;
  audioContextInRef : option handle;
  audioContextOutRef : option handle;
  nextStartTimeRef : N;
  sourcesRef : list handle;     (* a JS Set: no duplicates, insertion order *)
  sessionRef : option handle;
  streamRef : option handle;
  transcriptBufferRef : jsstring * jsstring;   (* user, model *)
  nodeCount : handle            (* source nodes created so far *)
}.

(** The state of a freshly mounted component. *)
Definition initial : State :=
  mkState false false [] None None false None None 0 [] None None ([], []) O.

Definition setIsActive (b : bool) (s : State) : State :=
  mkState b (isConnecting s) (transcripts s) (error s) (generatedImage s)
    (isGeneratingImage s) (audioContextInRef s) (audioContextOutRef s)
    (nextStartTimeRef s) (sourcesRef s) (sessionRef s) (streamRef s)
    (transcriptBufferRef s) (nodeCount s).

Definition setIsConnecting (b : bool) (s : State) : State :=
  mkState (isActive s) b (transcripts s) (error s) (generatedImage s)
    (isGeneratingImage s) (audioContextInRef s) (audioContextOutRef s)
    (nextStartTimeRef s) (sourcesRef s) (sessionRef s) (streamRef s)
    (transcriptBufferRef s) (nodeCount s).

Definition setTranscripts (f : list Entry -> list Entry) (s : State) : State :=
  mkState (isActive s) (isConnecting s) (f (transcripts s)) (error s)
    (generatedImage s) (isGeneratingImage s) (audioContextInRef s)
    (audioContextOutRef s) (nextStartTimeRef s) (sourcesRef s) (sessionRef s)
    (streamRef s) (transcriptBufferRef s) (nodeCount s).

Definition setError (e : option jsstring) (s : State) : State :=
  mkState (isActive s) (isConnecting s) (transcripts s) e (generatedImage s)
    (isGeneratingImage s) (audioContextInRef s) (audioContextOutRef s)
    (nextStartTimeRef s) (sourcesRef s) (sessionRef s) (streamRef s)
    (transcriptBufferRef s) (nodeCount s).

Definition setGeneratedImage (i : option jsstring) (s : State) : State :=
  mkState (isActive s) (isConnecting s) (transcripts s) (error s) i
    (isGeneratingImage s) (audioContextInRef s) (audioContextOutRef s)
    (nextStartTimeRef s) (sourcesRef s) (sessionRef s) (streamRef s)
    (transcriptBufferRef s) (nodeCount s).

Definition setIsGeneratingImage (b : bool) (s : State) : State :=
  mkState (isActive s) (isConnecting s) (transcripts s) (error s)
    (generatedImage s) b (audioContextInRef s) (audioContextOutRef s)
    (nextStartTimeRef s) (sourcesRef s) (sessionRef s) (streamRef s)
    (transcriptBufferRef s) (nodeCount s).

Definition setAudioContextIn (c : option handle) (s : State) : State :=
  mkState (isActive s) (isConnecting s) (transcripts s) (error s)
    (generatedImage s) (isGeneratingImage s) c (audioContextOutRef s)
    (nextStartTimeRef s) (sourcesRef s) (sessionRef s) (streamRef s)
    (transcriptBufferRef s) (nodeCount s).

Definition setAudioContextOut (c : option handle) (s : State) : State :=
  mkState (isActive s) (isConnecting s) (transcripts s) (error s)
    (generatedImage s) (isGeneratingImage s) (audioContextInRef s) c
    (nextStartTimeRef s) (sourcesRef s) (sessionRef s) (streamRef s)
    (transcriptBufferRef s) (nodeCount s).

Definition setNextStartTime (t : N) (s : State) : State :=
  mkState (isActive s) (isConnecting s) (transcripts s) (error s)
    (generatedImage s) (isGeneratingImage s) (audioContextInRef s)
    (audioContextOutRef s) t (sourcesRef s) (sessionRef s) (streamRef s)
    (transcriptBufferRef s) (nodeCount s).

Definition setSources (l : list handle) (s : State) : State :=
  mkState (isActive s) (isConnecting s) (transcripts s) (error s)
    (generatedImage s) (isGeneratingImage s) (audioContextInRef s)
    (audioContextOutRef s) (nextStartTimeRef s) l (sessionRef s) (streamRef s)
    (transcriptBufferRef s) (nodeCount s).

Definition setSessionRef (c : option handle) (s : State) : State :=
  mkState (isActive s) (isConnecting s) (transcripts s) (error s)
    (generatedImage s) (isGeneratingImage s) (audioContextInRef s)
    (audioContextOutRef s) (nextStartTimeRef s) (sourcesRef s) c (streamRef s)
    (transcriptBufferRef s) (nodeCount s).

Definition setStreamRef (c : option handle) (s : State) : State :=
  mkState (isActive s) (isConnecting s) (transcripts s) (error s)
    (generatedImage s) (isGeneratingImage s) (audioContextInRef s)
    (audioContextOutRef s) (nextStartTimeRef s) (sourcesRef s) (sessionRef s) c
    (transcriptBufferRef s) (nodeCount s).

Definition setTranscriptBuffer (b : jsstring * jsstring) (s : State) : State :=
  mkState (isActive s) (isConnecting s) (transcripts s) (error s)
    (generatedImage s) (isGeneratingImage s) (audioContextInRef s)
    (audioContextOutRef s) (nextStartTimeRef s) (sourcesRef s) (sessionRef s)
    (streamRef s) b (nodeCount s).

Definition setNodeCount (n : handle) (s : State) : State :=
  mkState (isActive s) (isConnecting s) (transcripts s) (error s)
    (generatedImage s) (isGeneratingImage s) (audioContextInRef s)
    (audioContextOutRef s) (nextStartTimeRef s) (sourcesRef s) (sessionRef s)
    (streamRef s) (transcriptBufferRef s) n.

(** [Set.prototype.add] and [Set.prototype.delete] on the list that stands
    for the set of source nodes. *)
Definition set_add (x : handle) (l : list handle) : list handle :=
  if existsb (Nat.eqb x) l then l else l ++ [x].

Definition set_delete (x : handle) (l : list handle) : list handle :=
  filter (fun y => negb (Nat.eqb x y)) l.

(* ================================================================= *)
(** ** The monad of handlers: state, trace of calls, exceptions *)

Inductive Exn :=
| DecodeError                 (* decode / decodeAudioData threw *)
| TypeError                   (* property read on undefined *)
| Rejected                    (* a collaborator's promise rejected *)
| CallFailed (e : Effect).    (* a close/stop call threw *)

Inductive Outcome (A : Type) :=
| Done (a : A)
| Thrown (x : Exn).
Arguments Thrown {A} x.

Record Run (A : Type) := mkRun {
  outcome : Outcome A;
  final : State;
  trace : list Effect
}.

Definition M (A : Type) := State -> Run A.

Definition ret {A} (a : A) : M A := fun s => mkRun (Done a) s [].

(** Appends the calls made before to those of a run. *)
Definition after {A} (t : list Effect) (r : Run A) : Run A :=
  match r with
  | mkRun o s t' => mkRun o s (t ++ t')
  end.

Definition bind {A B} (m : M A) (k : A -> M B) : M B :=
  fun s =>
    match m s with
    | mkRun (Done a) s1 t1 => after t1 (k a s1)
    | mkRun (Thrown x) s1 t1 => mkRun (Thrown x) s1 t1
    end.

Declare Scope handler_scope.
Delimit Scope handler_scope with handler.
Notation "x <- m ;; k" := (bind m (fun x => k))
  (at level 61, m at next level, right associativity) : handler_scope.
Notation "m ;; k" := (bind m (fun _ => k))
  (at level 61, right associativity) : handler_scope.
Open Scope handler_scope.

Definition get : M State := fun s => mkRun (Done s) s [].
Definition modify (f : State -> State) : M unit :=
  fun s => mkRun (Done tt) (f s) [].
Definition throw {A} (x : Exn) : M A := fun s => mkRun (Thrown x) s [].

(** A call that cannot throw. *)
Definition emit (e : Effect) : M unit := fun s => mkRun (Done tt) s [e].

(** A call that throws when the environment says so. *)
Definition call (env : Env) (e : Effect) : M unit :=
  fun s => mkRun (if throws env e then Thrown (CallFailed e) else Done tt) s [e].

(** [try { m } catch (x) { h x }] *)
Definition try_catch {A} (m : M A) (h : Exn -> M A) : M A :=
  fun s =>
    match m s with
    | mkRun (Done a) s1 t1 => mkRun (Done a) s1 t1
    | mkRun (Thrown x) s1 t1 => after t1 (h x s1)
    end.

(** [try { m } finally { f }] *)
Definition try_finally {A} (m : M A) (f : M unit) : M A :=
  fun s =>
    match m s with
    | mkRun o s1 t1 =>
        match f s1 with
        | mkRun (Done _) s2 t2 => mkRun o s2 (t1 ++ t2)
        | mkRun (Thrown x) s2 t2 => mkRun (Thrown x) s2 (t1 ++ t2)
        end
    end.

(** [try { call } catch (e) {}], and [promise.catch(() => {})]. *)
Definition swallow (m : M unit) : M unit := try_catch m (fun _ => ret tt).

(** [for (const x of l) { body x }], and [forEach]. *)
Fixpoint for_each {A} (l : list A) (body : A -> M unit) : M unit :=
  match l with
  | [] => ret tt
  | x :: l' => body x ;; for_each l' body
  end.

(** [if (o) { body o }] *)
Definition when_some {A} (o : option A) (body : A -> M unit) : M unit :=
  match o with
  | Some a => body a
  | None => ret tt
  end.

(** [if (ref.current) { body ref.current }] *)
Definition when_ref (ref : State -> option handle) (body : handle -> M unit)
  : M unit :=
  s <- get ;;
  when_some (ref s) body.

(* ================================================================= *)
(** ** cleanupSession *)

Definition stop_all (env : Env) : M unit :=
  s <- get ;;
  for_each (sourcesRef s) (fun source => swallow (call env (SourceStop source))).

Definition cleanupSession (env : Env) : M unit :=
  when_ref sessionRef (fun session =>
    swallow (call env (ChannelClose session)) ;;
    modify (setSessionRef None)) ;;
  when_ref streamRef (fun stream =>
    emit (TrackStop stream) ;;
    modify (setStreamRef None)) ;;
  when_ref audioContextInRef (fun ctx =>
    swallow (call env (ContextClose ctx)) ;;
    modify (setAudioContextIn None)) ;;
  when_ref audioContextOutRef (fun ctx =>
    swallow (call env (ContextClose ctx)) ;;
    modify (setAudioContextOut None)) ;;
  stop_all env ;;
  modify (setSources []) ;;
  modify (setNextStartTime 0) ;;
  modify (setIsActive false) ;;
  modify (setIsConnecting false).

(* ================================================================= *)
(** ** handleGenerateImage *)

(** The fixed reply of the tool, line 123 of the source. *)
Definition confirmation : jsstring :=
  [2459; 2476; 2495; 2463; 2495; 32; 2472; 2495; 2458; 2503; 32; 2468; 2504;
   2480; 2495; 32; 2453; 2480; 2494; 32; 2489; 2527; 2503; 2459; 2503; 2404].

Definition data_url (data : jsstring) : jsstring :=
  lit "data:image/png;base64," ++ data.

(** The loop over the parts, left at the first part with inline data. *)
Fixpoint store_first_image (parts : list Part) : M unit :=
  match parts with
  | [] => ret tt
  | part :: rest =>
      match inlineData part with
      | Some data => modify (setGeneratedImage (Some (data_url data)))
      | None => store_first_image rest
      end
  end.

(** [await ai.models.generateContent(...)] then [response.candidates[0]]. *)
Definition request_image (env : Env) (prompt : jsstring) : M (list Part) :=
  emit (GenerateContent prompt) ;;
  match generateContent env prompt with
  | GenRejected => throw Rejected
  | GenResponse [] => throw TypeError
  | GenResponse (parts :: _) => ret parts
  end.

Definition handleGenerateImage (env : Env) (prompt : jsstring) : M jsstring :=
  modify (setIsGeneratingImage true) ;;
  try_finally
    (try_catch
       (parts <- request_image env prompt ;;
        store_first_image parts)
       (fun _ => emit (ConsoleError (lit "Image generation failed"))))
    (modify (setIsGeneratingImage false)) ;;
  ret confirmation.

(* ================================================================= *)
(** ** onmessage *)

Definition generateImage_name : jsstring := lit "generateImage".

(** Lines 191-202: the loop over [message.toolCall.functionCalls]. *)
Definition dispatch_call (env : Env) (fc : FunctionCall) : M unit :=
  if JsString.eqb (fc_name fc) generateImage_name then
    result <- handleGenerateImage env (fc_prompt fc) ;;
    emit (SendToolResponse (fc_id fc) (fc_name fc) result)
  else ret tt.

Definition dispatch_tool_calls (env : Env) (calls : list FunctionCall) : M unit :=
  for_each calls (dispatch_call env).

(** Lines 205-210: [transcriptBufferRef.current.user += text]. *)
Definition append_user (t : jsstring) : M unit :=
  modify (fun s =>
    setTranscriptBuffer
      (fst (transcriptBufferRef s) ++ t, snd (transcriptBufferRef s)) s).

Definition append_model (t : jsstring) : M unit :=
  modify (fun s =>
    setTranscriptBuffer
      (fst (transcriptBufferRef s), snd (transcriptBufferRef s) ++ t) s).

(** The entries a turn puts in front of the history. *)
Definition turn_entries (u m : jsstring) : list Entry :=
  (if truthy u then [mkEntry user u] else [])
  ++ (if truthy m then [mkEntry model m] else []).

(** The updater given to [setTranscripts], with its [.slice(0, 30)]. *)
Definition push_turn (u m : jsstring) (prev : list Entry) : list Entry :=
  firstn 30 (turn_entries u m ++ prev).

(** Lines 211-222. *)
Definition complete_turn : M unit :=
  s <- get ;;
  let u := trim (fst (transcriptBufferRef s)) in
  let m := trim (snd (transcriptBufferRef s)) in
  (if truthy u || truthy m
   then modify (setTranscripts (push_turn u m))
   else ret tt) ;;
  modify (setTranscriptBuffer ([], [])).

Definition has_inline (p : Part) : bool :=
  match inlineData p with Some _ => true | None => false end.

(** Line 225:
    [serverContent?.modelTurn?.parts?.find(p => p.inlineData)?.inlineData?.data] *)
Definition audioData (sc : option ServerContent) : option jsstring :=
  match sc with
  | None => None
  | Some c =>
      match modelTurn c with
      | None => None
      | Some parts =>
          match find has_inline parts with
          | Some p => inlineData p
          | None => None
          end
      end
  end.

(** [outCtx.createBufferSource()]: a node nobody holds yet. *)
Definition createBufferSource : M handle :=
  s <- get ;;
  modify (setNodeCount (S (nodeCount s))) ;;
  ret (nodeCount s).

(** Lines 227-240. *)
Definition enqueue_audio (env : Env) (data : jsstring) : M unit :=
  when_ref audioContextOutRef (fun _ =>
    s <- get ;;
    modify (setNextStartTime (N.max (nextStartTimeRef s) (now env))) ;;
    audioBuffer <- match decodeAudio env data with
                   | Some duration => ret duration
                   | None => throw DecodeError
                   end ;;
    source <- createBufferSource ;;
    s1 <- get ;;
    emit (SourceStart source (nextStartTimeRef s1) audioBuffer) ;;
    modify (setNextStartTime (nextStartTimeRef s1 + audioBuffer)) ;;
    modify (fun s2 => setSources (set_add source (sourcesRef s2)) s2)).

(** Lines 243-247. *)
Definition interrupt (env : Env) : M unit :=
  stop_all env ;;
  modify (setSources []) ;;
  modify (setNextStartTime 0).

Definition sc_field {A} (f : ServerContent -> option A)
  (sc : option ServerContent) : option A :=
  match sc with Some c => f c | None => None end.

Definition sc_flag (f : ServerContent -> bool)
  (sc : option ServerContent) : bool :=
  match sc with Some c => f c | None => false end.

Definition onmessage (env : Env) (message : LiveServerMessage) : M unit :=
  let sc := serverContent message in
  when_some (toolCall message) (dispatch_tool_calls env) ;;
  when_some (sc_field inputTranscription sc) append_user ;;
  when_some (sc_field outputTranscription sc) append_model ;;
  (if sc_flag turnComplete sc then complete_turn else ret tt) ;;
  when_some (audioData sc) (fun data =>
    if truthy data then enqueue_audio env data else ret tt) ;;
  (if sc_flag interrupted sc then interrupt env else ret tt).

(* ================================================================= *)
(** ** startSession and the other callbacks *)

(** Line 264. *)
Definition unreachable_message : jsstring :=
  [2438; 2478; 2494; 2480; 32; 2453; 2494; 2459; 2503; 32; 2474; 2508; 2433;
   2459; 2494; 2472; 2507; 32; 2479; 2494; 2458; 2509; 2459; 2503; 32; 2472;
   2494; 2404; 32; 2470; 2527; 2494; 32; 2453; 2480; 2503; 32; 2438; 2474;
   2472; 2494; 2480; 32; 2439; 2472; 2509; 2463; 2494; 2480; 2472; 2503; 2463;
   32; 2458; 2503; 2453; 32; 2453; 2480; 2497; 2472; 2404].

(** Line 251. *)
Definition interrupted_message : jsstring :=
  [2455; 2482; 2509; 2474; 2503; 32; 2447; 2453; 2463; 2497; 32; 2476; 2494;
   2471; 2494; 32; 2474; 2524; 2482; 2507; 2404; 32; 2438; 2478; 2495; 32;
   2438; 2476; 2494; 2480; 32; 2488; 2434; 2479; 2507; 2455; 32; 2453; 2480;
   2494; 2480; 32; 2458; 2503; 2487; 2509; 2463; 2494; 32; 2453; 2480; 2459;
   2495; 46; 46; 46].

(** Lines 169-172; the wiring of the capture pipeline is left out. *)
Definition onopen : M unit :=
  modify (setIsConnecting false) ;;
  modify (setIsActive true).

Definition await_option (o : option handle) (opened : handle -> Effect)
  : M handle :=
  match o with
  | Some h => emit (opened h) ;; ret h
  | None => throw Rejected
  end.

Definition startSession (env : Env) : M unit :=
  try_catch
    (modify (setIsConnecting true) ;;
     modify (setError None) ;;
     stream <- await_option (getUserMedia env) MicOpen ;;
     modify (setStreamRef (Some stream)) ;;
     emit (ContextOpen (fst (newContexts env))) ;;
     emit (ContextOpen (snd (newContexts env))) ;;
     modify (setAudioContextIn (Some (fst (newContexts env)))) ;;
     modify (setAudioContextOut (Some (snd (newContexts env)))) ;;
     session <- (ch <- await_option (connect env) ChannelOpen ;;
                 onopen ;;
                 ret ch) ;;
     modify (setSessionRef (Some session)))
    (fun _ =>
       emit (ConsoleError (lit "Failed to start session:")) ;;
       modify (setError (Some unreachable_message)) ;;
       modify (setIsConnecting false)).

Definition onerror (env : Env) : M unit :=
  emit (ConsoleError (lit "Session Error:")) ;;
  modify (setError (Some interrupted_message)) ;;
  cleanupSession env.

Definition onclose (env : Env) : M unit := cleanupSession env.

(** The ['ended'] listener of a source node, line 234. *)
Definition onended (source : handle) : M unit :=
  modify (fun s => setSources (set_delete source (sourcesRef s)) s).

(* ================================================================= *)
(** ** The component as a machine *)

Inductive Event :=
| Message (m : LiveServerMessage)
| Ended (source : handle)
| ChannelError
| ChannelClosed
| ToggleClick                 (* the start/stop button *)
| DismissClick.               (* setGeneratedImage(null) *)

Definition handle_event (env : Env) (ev : Event) : M unit :=
  match ev with
  | Message m => onmessage env m
  | Ended source => onended source
  | ChannelError => onerror env
  | ChannelClosed => onclose env
  | ToggleClick =>
      s <- get ;;
      if isConnecting s then ret tt           (* disabled={isConnecting} *)
      else if isActive s then cleanupSession env
      else startSession env
  | DismissClick => modify (setGeneratedImage None)
  end.

(** A handler that throws leaves a rejected promise nobody awaits: the
    state it reached stays, and the next event is handled. *)
Definition detached (m : M unit) : M unit :=
  fun s => match m s with mkRun _ s1 t1 => mkRun (Done tt) s1 t1 end.

Definition run_events (evs : list (Env * Event)) : M unit :=
  for_each evs (fun e => detached (handle_event (fst e) (snd e))).

Inductive reachable : State -> Prop :=
| reach_initial : reachable initial
| reach_step s env ev :
    reachable s -> reachable (final (handle_event env ev s)).


(* ================================================================= *)
(** ** downloadImage *)

(** Calls made on the document, in the order they are made. *)
Inductive DomCall :=
| CreateAnchor                      (* document.createElement('a') *)
| SetHref (url : jsstring)          (* link.href = ... *)
| SetDownload (name : jsstring)     (* link.download = ... *)
| AppendToBody                      (* document.body.appendChild(link) *)
| ClickLink                         (* link.click() *)
| RemoveFromBody.                   (* document.body.removeChild(link) *)

(** A number of milliseconds in a template literal: its decimal digits. *)
Definition decimal (n : N) : jsstring :=
  lit (DecimalString.NilEmpty.string_of_uint (N.to_uint n)).

(** Line 130, [dateNow] being what [Date.now()] returns. *)
Definition download_name (dateNow : N) : jsstring :=
  lit "manoshi-artwork-" ++ decimal dateNow ++ lit ".png".

(** Lines 126-134. *)
Definition downloadImage (dateNow : N) (s : State) : list DomCall :=
  match generatedImage s with
  | None => []
  | Some url =>
      if truthy url
      then [CreateAnchor; SetHref url; SetDownload (download_name dateNow);
            AppendToBody; ClickLink; RemoveFromBody]
      else []
  end.

(* ================================================================= *)
(** ** Vocabulary of the statements *)

(** What [cleanupSession] leaves, and the calls it makes. *)
Definition cleaned (s : State) : State :=
  mkState false false (transcripts s) (error s) (generatedImage s)
    (isGeneratingImage s) None None 0 [] None None
    (transcriptBufferRef s) (nodeCount s).

Definition opt_call (f : handle -> Effect) (o : option handle) : list Effect :=
  match o with Some h => [f h] | None => [] end.

Definition cleanup_calls (s : State) : list Effect :=
  opt_call ChannelClose (sessionRef s)
  ++ opt_call TrackStop (streamRef s)
  ++ opt_call ContextClose (audioContextInRef s)
  ++ opt_call ContextClose (audioContextOutRef s)
  ++ map SourceStop (sourcesRef s).

(** A property of the state that a handler keeps, however it ends. *)
Definition preserves {A} (P : State -> Prop) (m : M A) : Prop :=
  forall s, P s -> P (final (m s)).

(** The history holds 30 entries at most. *)
Definition bounded_history (s : State) : Prop :=
  (List.length (transcripts s) <= 30)%nat.

(** A message that carries one transcript fragment, and one that only
    signals the end of the turn. *)
Definition fragment_msg (r : Role) (t : jsstring) : LiveServerMessage :=
  mkMessage None
    (Some match r with
          | user => mkServerContent (Some t) None false None false
          | model => mkServerContent None (Some t) false None false
          end).

Definition turn_complete_msg : LiveServerMessage :=
  mkMessage None (Some (mkServerContent None None true None false)).

Definition appended (r : Role) (t : jsstring) (s : State) : State :=
  let b := transcriptBufferRef s in
  setTranscriptBuffer
    match r with
    | user => (fst b ++ t, snd b)
    | model => (fst b, snd b ++ t)
    end s.

Definition flushed (s : State) : State :=
  let u := trim (fst (transcriptBufferRef s)) in
  let m := trim (snd (transcriptBufferRef s)) in
  setTranscriptBuffer ([], [])
    (if truthy u || truthy m then setTranscripts (push_turn u m) s else s).

Definition role_eqb (a b : Role) : bool :=
  match a, b with
  | user, user | model, model => true
  | _, _ => false
  end.

(** The fragments of one role, joined in arrival order. *)
Fixpoint joined (r : Role) (frs : list (Env * (Role * jsstring))) : jsstring :=
  match frs with
  | [] => []
  | (_, (r', t)) :: rest =>
      (if role_eqb r r' then t else []) ++ joined r rest
  end.

Definition fragment_event (f : Env * (Role * jsstring)) : Env * Event :=
  (fst f, Message (fragment_msg (fst (snd f)) (snd (snd f)))).

(** An entry as a turn leaves it: trimmed, and not empty. *)
Definition finalized (e : Entry) : Prop :=
  trim (text e) = text e /\ text e <> [].

(** The two messages that put one entry in the history. *)
Definition entry_events (env : Env) (e : Entry) : list (Env * Event) :=
  [(env, Message (fragment_msg (type e) (text e)));
   (env, Message turn_complete_msg)].

(** A message that carries one audio chunk, one that only signals an
    interruption, and one that only carries tool calls. *)
Definition audio_msg (data : jsstring) : LiveServerMessage :=
  mkMessage None
    (Some (mkServerContent None None false
             (Some [mkPart None (Some data)]) false)).

Definition interrupt_msg : LiveServerMessage :=
  mkMessage None (Some (mkServerContent None None false None true)).

Definition tool_msg (calls : list FunctionCall) : LiveServerMessage :=
  mkMessage (Some calls) None.

(** An audio chunk as the scheduler meets it: the reading of the output
    clock when it is enqueued, its payload, and the duration of the buffer
    it decodes to. *)
Record Chunk := mkChunk {
  arrival : N;
  payload : jsstring;
  duration : N
}.

Definition chunk_env (base : Env) (c : Chunk) : Env :=
  mkEnv (arrival c) (fun _ => Some (duration c)) (generateContent base)
    (throws base) (getUserMedia base) (newContexts base) (connect base).

Definition enqueue_event (base : Env) (c : Chunk) : Env * Event :=
  (chunk_env base c, Message (audio_msg (payload c))).

(** Start time and duration of the [source.start] calls of a trace. *)
Fixpoint starts (tr : list Effect) : list (N * N) :=
  match tr with
  | [] => []
  | SourceStart _ when d :: rest => (when, d) :: starts rest
  | _ :: rest => starts rest
  end.

(** The timetable of line 229 and line 238. *)
Fixpoint schedule (cursor : N) (chunks : list Chunk) : list (N * N) :=
  match chunks with
  | [] => []
  | c :: rest =>
      let startTime := N.max cursor (arrival c) in
      (startTime, duration c) :: schedule (startTime + duration c) rest
  end.

Fixpoint end_cursor (cursor : N) (chunks : list Chunk) : N :=
  match chunks with
  | [] => cursor
  | c :: rest => end_cursor (N.max cursor (arrival c) + duration c) rest
  end.

(** The state after a chunk of duration [d] was scheduled at
    [startTime]: lines 231-239. *)
Definition enqueued (startTime d : N) (s : State) : State :=
  mkState (isActive s) (isConnecting s) (transcripts s) (error s)
    (generatedImage s) (isGeneratingImage s) (audioContextInRef s)
    (audioContextOutRef s) (startTime + d)
    (set_add (nodeCount s) (sourcesRef s)) (sessionRef s) (streamRef s)
    (transcriptBufferRef s) (S (nodeCount s)).

(** Every chunk has a payload that [if (audioData)] lets through. *)
Definition audible (chunks : list Chunk) : Prop :=
  Forall (fun c => payload c <> []) chunks.

(** The timetable the scheduler makes for [chunks], enqueued in [s]. *)
Definition timetable (base : Env) (chunks : list Chunk) (s : State)
  : list (N * N) :=
  starts (trace (run_events (map (enqueue_event base) chunks) s)).

(** Gapless scheduling read to the letter: each chunk starts when the one
    before it ends. *)
Definition gapless_as_stated : Prop :=
  forall base s ctx chunks,
    audioContextOutRef s = Some ctx -> audible chunks ->
    forall k t d t' d',
      nth_error (timetable base chunks s) k = Some (t, d) ->
      nth_error (timetable base chunks s) (S k) = Some (t', d') ->
      t' = t + d.

(* ================================================================= *)
(** ** startSession around the await of the connection *)

(** Lines 138-154: what [startSession] does before it calls
    [ai.live.connect] and waits for the session on line 260. *)
Definition start_acquire (env : Env) : M unit :=
  modify (setIsConnecting true) ;;
  modify (setError None) ;;
  stream <- await_option (getUserMedia env) MicOpen ;;
  modify (setStreamRef (Some stream)) ;;
  emit (ContextOpen (fst (newContexts env))) ;;
  emit (ContextOpen (snd (newContexts env))) ;;
  modify (setAudioContextIn (Some (fst (newContexts env)))) ;;
  modify (setAudioContextOut (Some (snd (newContexts env)))).

(** Lines 156-260, from the answer of the connection on: [onopen], then
    the assignment of [sessionRef]. *)
Definition start_connect (env : Env) : M unit :=
  session <- (ch <- await_option (connect env) ChannelOpen ;;
              onopen ;;
              ret ch) ;;
  modify (setSessionRef (Some session)).

(** Lines 262-266. *)
Definition start_catch (x : Exn) : M unit :=
  emit (ConsoleError (lit "Failed to start session:")) ;;
  modify (setError (Some unreachable_message)) ;;
  modify (setIsConnecting false).

(** What is left of [startSession] when the wait of line 260 is over. *)
Definition start_resume (env : Env) : M unit :=
  try_catch (start_connect env) start_catch.

(* ================================================================= *)
(** ** Sample inputs *)

(** An environment where the devices and the channel are granted and
    every chunk decodes to one second of audio; the image service rejects
    every request. *)
Definition studio : Env :=
  mkEnv 0 (fun _ => Some 24000) (fun _ => GenRejected) (fun _ => false)
    (Some 1%nat) (2%nat, 3%nat) (Some 4%nat).

(** The session once [startSession] went through. *)
Definition active_state : State := final (startSession studio initial).

(** Entries "A", "B", ... of the user, 35 of them. *)
Definition sample_entries : list Entry :=
  map (fun n => mkEntry user [65 + N.of_nat n]) (seq 0 35).

(** The fragments of scenario B of the specification. *)
Definition scenario_B : list (Env * (Role * jsstring)) :=
  [(studio, (user, [2438; 2478; 2495]));
   (studio, (user, [32; 2477; 2494; 2482; 2507]))].

(** Two chunks of one second, the second enqueued four seconds after the
    first one ended. *)
Definition late_chunks : list Chunk :=
  [mkChunk 0 (lit "UklGRg==") 24000; mkChunk 120000 (lit "UklGRg==") 24000].

(** Scenario A of the specification: 0.5 s and 0.3 s, clock at 0. *)
Definition scenario_A : list Chunk :=
  [mkChunk 0 (lit "UklGRg==") 12000; mkChunk 0 (lit "UklGRg==") 7200].

(** The microphone is granted, the connection fails. *)
Definition no_network : Env :=
  mkEnv 0 (fun _ => None) (fun _ => GenRejected) (fun _ => false)
    (Some 1%nat) (2%nat, 3%nat) None.

(** A later attempt, which goes through with new devices. *)
Definition second_attempt : Env :=
  mkEnv 0 (fun _ => None) (fun _ => GenRejected) (fun _ => false)
    (Some 5%nat) (6%nat, 7%nat) (Some 8%nat).

(** Scenario C of the specification: a call for the picture of a cat. *)
Definition cat_call : FunctionCall :=
  mkFunctionCall (lit "call-1") (lit "generateImage") (lit "a cat").

(** A call for a tool the session never declared. *)
Definition weather_call : FunctionCall :=
  mkFunctionCall (lit "call-2") (lit "getWeather") (lit "Dhaka").

(** An image service that answers with a caption and two images. *)
Definition painter : Env :=
  mkEnv 0 (fun _ => Some 24000)
    (fun _ => GenResponse
                [[mkPart (Some (lit "a cat")) None;
                  mkPart None (Some (lit "iVBORw0KGgo="));
                  mkPart None (Some (lit "R0lGODlh"))]])
    (fun _ => false) (Some 1%nat) (2%nat, 3%nat) (Some 4%nat).

(** An environment where no payload decodes. *)
Definition garbled : Env :=
  mkEnv 0 (fun _ => None) (fun _ => GenRejected) (fun _ => false)
    (Some 1%nat) (2%nat, 3%nat) (Some 4%nat).

(* ================================================================= *)
(** ** Further vocabulary: session, sources, tool calls *)

(** The state a successful [startSession] leaves. *)
Definition started (env : Env) (stream ch : handle) (s : State) : State :=
  mkState true false (transcripts s) None (generatedImage s)
    (isGeneratingImage s) (Some (fst (newContexts env)))
    (Some (snd (newContexts env))) (nextStartTimeRef s) (sourcesRef s)
    (Some ch) (Some stream) (transcriptBufferRef s) (nodeCount s).

(** The set of sources holds no node twice, and only nodes that
    [createBufferSource] has handed out. *)
Definition well_formed_sources (s : State) : Prop :=
  NoDup (sourcesRef s)
  /\ Forall (fun h => (h < nodeCount s)%nat) (sourcesRef s).

Definition is_message (ev : Event) : bool :=
  match ev with Message _ => true | _ => false end.

Definition is_generateImage (fc : FunctionCall) : bool :=
  JsString.eqb (fc_name fc) generateImage_name.

(** Chunks played back to back from [cursor]. *)
Fixpoint back_to_back (cursor : N) (chunks : list Chunk) : list (N * N) :=
  match chunks with
  | [] => []
  | c :: rest => (cursor, duration c) :: back_to_back (cursor + duration c) rest
  end.

(** The payload of the first part that carries inline data. *)
Definition first_inline (parts : list Part) : option jsstring :=
  match find has_inline parts with
  | Some p => inlineData p
  | None => None
  end.

(** The artifact after the image service was asked for [prompt], and
    what the handler logs. *)
Definition image_after (env : Env) (prompt : jsstring) (s : State)
  : option jsstring :=
  match generateContent env prompt with
  | GenResponse (parts :: _) =>
      match first_inline parts with
      | Some data => Some (data_url data)
      | None => generatedImage s
      end
  | _ => generatedImage s
  end.

Definition image_log (env : Env) (prompt : jsstring) : list Effect :=
  match generateContent env prompt with
  | GenResponse (_ :: _) => []
  | _ => [ConsoleError (lit "Image generation failed")]
  end.

(** Every entry of the history is trimmed and not empty. *)
Definition finalized_history (s : State) : Prop :=
  Forall finalized (transcripts s).

(** An image service that answers with words only. *)
Definition captioner : Env :=
  mkEnv 0 (fun _ => Some 24000)
    (fun _ => GenResponse [[mkPart (Some (lit "a cat")) None]])
    (fun _ => false) (Some 1%nat) (2%nat, 3%nat) (Some 4%nat).

(** A string that does not begin with white space. *)
Definition starts_clean (t : jsstring) : Prop :=
  match t with
  | [] => True
  | c :: _ => is_white_space c = false
  end.

(** An entry whose text is not empty, is left as it is by [trim], and
    neither begins nor ends with white space. *)
Definition tidy (e : Entry) : Prop :=
  finalized e /\ starts_clean (text e) /\ starts_clean (rev (text e)).

Definition tidy_history (s : State) : Prop := Forall tidy (transcripts s).

(** Events that neither interrupt the playback nor stop the session. *)
Definition keeps_queue (ev : Event) : bool :=
  match ev with
  | Message m => negb (sc_flag interrupted (serverContent m))
  | Ended _ | DismissClick => true
  | ChannelError | ChannelClosed | ToggleClick => false
  end.

(** A message whose model turn has the given parts and nothing else. *)
Definition parts_msg (parts : list Part) : LiveServerMessage :=
  mkMessage None (Some (mkServerContent None None false (Some parts) false)).

(** A message taken apart: one message per field it carries, in the
    order in which [onmessage] looks at the fields. *)
Definition message_parts (m : LiveServerMessage) : list LiveServerMessage :=
  let sc := serverContent m in
  match toolCall m with Some calls => [tool_msg calls] | None => [] end
  ++ match sc_field inputTranscription sc with
     | Some t => [fragment_msg user t]
     | None => []
     end
  ++ match sc_field outputTranscription sc with
     | Some t => [fragment_msg model t]
     | None => []
     end
  ++ (if sc_flag turnComplete sc then [turn_complete_msg] else [])
  ++ match audioData sc with Some data => [audio_msg data] | None => [] end
  ++ (if sc_flag interrupted sc then [interrupt_msg] else []).

Definition deliver (env : Env) (m : LiveServerMessage) : Env * Event :=
  (env, Message m).

(** A message with a fragment of each role, a chunk and an interruption. *)
Definition crowded_msg : LiveServerMessage :=
  mkMessage None
    (Some (mkServerContent (Some (lit "hello ")) (Some (lit " hi"))
             true (Some [mkPart None (Some (lit "UklGRg=="))]) true)).

(** The two chunks of scenario A scheduled, and still playing. *)
Definition playing_state : State :=
  final (run_events (map (enqueue_event studio) scenario_A) active_state).

(** A message whose chunk does not decode and that signals an
    interruption. *)
Definition corrupt_barge_in : LiveServerMessage :=
  mkMessage None
    (Some (mkServerContent None None false
             (Some [mkPart None (Some (lit "%%%"))]) true)).

(* ================================================================= *)
(** ** Equations of the monad *)

Lemma bind_done {A B} (m : M A) (k : A -> M B) s a s1 t1 :
  m s = mkRun (Done a) s1 t1 -> bind m k s = after t1 (k a s1).
Proof. unfold bind; intros ->; reflexivity. Qed.

Lemma bind_thrown {A B} (m : M A) (k : A -> M B) s x s1 t1 :
  m s = mkRun (Thrown x) s1 t1 -> bind m k s = mkRun (Thrown x) s1 t1.
Proof. unfold bind; intros ->; reflexivity. Qed.

Lemma after_nil {A} (r : Run A) : after [] r = r.
Proof. destruct r; reflexivity. Qed.

Lemma final_after {A} t (r : Run A) : final (after t r) = final r.
Proof. destruct r; reflexivity. Qed.

Lemma outcome_after {A} t (r : Run A) : outcome (after t r) = outcome r.
Proof. destruct r; reflexivity. Qed.

Lemma trace_after {A} t (r : Run A) : trace (after t r) = t ++ trace r.
Proof. destruct r; reflexivity. Qed.

Lemma get_bind {A} (k : State -> M A) s : bind get k s = k s s.
Proof. unfold bind, get. apply after_nil. Qed.

Lemma when_ref_run ref body s :
  when_ref ref body s = when_some (ref s) body s.
Proof. exact (get_bind (fun s0 => when_some (ref s0) body) s). Qed.

Lemma swallow_call env e s :
  swallow (call env e) s = mkRun (Done tt) s [e].
Proof.
  unfold swallow, try_catch, call.
  destruct (throws env e); reflexivity.
Qed.

Lemma for_each_stop env (l : list handle) s :
  for_each l (fun source => swallow (call env (SourceStop source))) s
  = mkRun (Done tt) s (map SourceStop l).
Proof.
  induction l as [|x l IH]; cbn [for_each map].
  - reflexivity.
  - rewrite (bind_done _ _ _ (swallow_call env _ s)), IH. reflexivity.
Qed.

Lemma stop_all_run env s :
  stop_all env s = mkRun (Done tt) s (map SourceStop (sourcesRef s)).
Proof.
  unfold stop_all, bind, get. rewrite for_each_stop. reflexivity.
Qed.

Lemma interrupt_run env s :
  interrupt env s
  = mkRun (Done tt) (setNextStartTime 0 (setSources [] s))
          (map SourceStop (sourcesRef s)).
Proof.
  unfold interrupt. rewrite (bind_done _ _ _ (stop_all_run env s)).
  cbn. rewrite app_nil_r. reflexivity.
Qed.

Lemma close_block env ref f g s :
  when_ref ref (fun h => swallow (call env (f h)) ;; modify g) s
  = mkRun (Done tt) (match ref s with Some _ => g s | None => s end)
          (opt_call f (ref s)).
Proof.
  rewrite when_ref_run. destruct (ref s); cbn [when_some opt_call].
  - rewrite (bind_done _ _ _ (swallow_call env _ s)). reflexivity.
  - reflexivity.
Qed.

Lemma stop_block ref f g s :
  when_ref ref (fun h => emit (f h) ;; modify g) s
  = mkRun (Done tt) (match ref s with Some _ => g s | None => s end)
          (opt_call f (ref s)).
Proof.
  rewrite when_ref_run. destruct (ref s); reflexivity.
Qed.

Lemma cleanupSession_run env s :
  cleanupSession env s = mkRun (Done tt) (cleaned s) (cleanup_calls s).
Proof.
  unfold cleanupSession, cleanup_calls, cleaned.
  rewrite (bind_done _ _ _ (close_block env _ _ _ _)).
  rewrite (bind_done _ _ _ (stop_block _ _ _ _)).
  rewrite (bind_done _ _ _ (close_block env _ _ _ _)).
  rewrite (bind_done _ _ _ (close_block env _ _ _ _)).
  rewrite (bind_done _ _ _ (stop_all_run env _)).
  destruct s as [a c t e g gi ci co n src se st tb nc].
  destruct se, st, ci, co; cbn; rewrite ?app_nil_r; reflexivity.
Qed.

(* ================================================================= *)
(** ** Properties kept by every handler *)

Section Preservation.

Variable P : State -> Prop.

Lemma preserves_ret {A} (a : A) : preserves P (ret a).
Proof. intros s H; exact H. Qed.

Lemma preserves_get : preserves P get.
Proof. intros s H; exact H. Qed.

Lemma preserves_throw {A} x : preserves P (@throw A x).
Proof. intros s H; exact H. Qed.

Lemma preserves_emit e : preserves P (emit e).
Proof. intros s H; exact H. Qed.

Lemma preserves_call env e : preserves P (call env e).
Proof. intros s H; exact H. Qed.

Lemma preserves_modify f :
  (forall s, P s -> P (f s)) -> preserves P (modify f).
Proof. intros Hf s H; apply Hf, H. Qed.

Lemma preserves_bind {A B} (m : M A) (k : A -> M B) :
  preserves P m -> (forall a, preserves P (k a)) -> preserves P (bind m k).
Proof.
  intros Hm Hk s H. unfold bind.
  specialize (Hm s H). destruct (m s) as [[a|x] s1 t1]; cbn in *.
  - rewrite final_after. apply Hk, Hm.
  - exact Hm.
Qed.

Lemma preserves_try_catch {A} (m : M A) h :
  preserves P m -> (forall x, preserves P (h x)) ->
  preserves P (try_catch m h).
Proof.
  intros Hm Hh s H. unfold try_catch.
  specialize (Hm s H). destruct (m s) as [[a|x] s1 t1]; cbn in *.
  - exact Hm.
  - rewrite final_after. apply Hh, Hm.
Qed.

Lemma preserves_try_finally {A} (m : M A) f :
  preserves P m -> preserves P f -> preserves P (try_finally m f).
Proof.
  intros Hm Hf s H. unfold try_finally.
  specialize (Hm s H). destruct (m s) as [o s1 t1]; cbn in Hm.
  specialize (Hf s1 Hm). destruct (f s1) as [[[]|x] s2 t2]; exact Hf.
Qed.

Lemma preserves_for_each {A} (l : list A) body :
  (forall x, preserves P (body x)) -> preserves P (for_each l body).
Proof.
  intro Hb. induction l as [|x l IH]; cbn [for_each].
  - apply preserves_ret.
  - apply preserves_bind; [apply Hb | intros _; exact IH].
Qed.

Lemma preserves_when_some {A} (o : option A) body :
  (forall a, preserves P (body a)) -> preserves P (when_some o body).
Proof. intro Hb. destruct o; cbn; [apply Hb | apply preserves_ret]. Qed.

Lemma preserves_when_ref ref body :
  (forall a, preserves P (body a)) -> preserves P (when_ref ref body).
Proof.
  intro Hb. unfold when_ref. apply preserves_bind; [apply preserves_get|].
  intro s. apply preserves_when_some, Hb.
Qed.

Lemma preserves_detached m : preserves P m -> preserves P (detached m).
Proof.
  intros Hm s H. unfold detached.
  specialize (Hm s H). destruct (m s); exact Hm.
Qed.

Lemma store_first_image_preserves parts :
  (forall i s, P s -> P (setGeneratedImage i s)) ->
  preserves P (store_first_image parts).
Proof.
  intro H. induction parts as [|p rest IH]; cbn [store_first_image].
  - apply preserves_ret.
  - destruct (inlineData p); [apply preserves_modify, H | exact IH].
Qed.

Lemma request_image_preserves env prompt :
  preserves P (request_image env prompt).
Proof.
  unfold request_image. apply preserves_bind; [apply preserves_emit|intros _].
  destruct (generateContent env prompt) as [|[|parts cs]];
    [apply preserves_throw | apply preserves_throw | apply preserves_ret].
Qed.

End Preservation.

(** Peels a handler down to its [modify] steps. *)
Ltac preserve :=
  repeat first
    [ apply preserves_ret | apply preserves_get | apply preserves_throw
    | apply preserves_emit | apply preserves_call
    | apply request_image_preserves
    | apply preserves_bind | apply preserves_try_catch
    | apply preserves_try_finally | apply preserves_for_each
    | apply preserves_when_some | apply preserves_when_ref
    | apply preserves_detached
    | match goal with
      | |- forall _, _ => intro
      | |- preserves _ (if ?b then _ else _) => destruct b
      | |- preserves _ (match ?o with Some _ => _ | None => _ end) =>
          destruct o
      end ].

Lemma push_turn_length u m prev : (List.length (push_turn u m prev) <= 30)%nat.
Proof. unfold push_turn. rewrite length_firstn. lia. Qed.

Lemma handle_event_bounded env ev :
  preserves bounded_history (handle_event env ev).
Proof.
  destruct ev as [msg|src| | | |]; cbn [handle_event].
  - unfold onmessage, dispatch_tool_calls, dispatch_call, handleGenerateImage,
      append_user, append_model, complete_turn, enqueue_audio, interrupt,
      stop_all, swallow, createBufferSource.
    preserve;
      try (apply store_first_image_preserves; intros ? ? H; exact H);
      try (apply preserves_modify; intros ? H; exact H).
    apply preserves_modify; intros ? _; apply push_turn_length.
  - unfold onended. apply preserves_modify; intros ? H; exact H.
  - unfold onerror, cleanupSession, stop_all, swallow.
    preserve; apply preserves_modify; intros ? H; exact H.
  - unfold onclose, cleanupSession, stop_all, swallow.
    preserve; apply preserves_modify; intros ? H; exact H.
  - unfold cleanupSession, startSession, await_option, onopen, stop_all, swallow.
    preserve; apply preserves_modify; intros ? H; exact H.
  - apply preserves_modify; intros ? H; exact H.
Qed.

Lemma reachable_bounded s : reachable s -> bounded_history s.
Proof.
  induction 1 as [|s env ev _ IH].
  - unfold bounded_history; cbn; lia.
  - apply handle_event_bounded, IH.
Qed.

(* ================================================================= *)
(** ** Runs of several events *)

Lemma run_events_nil s : run_events [] s = mkRun (Done tt) s [].
Proof. reflexivity. Qed.

Lemma run_events_cons env ev evs s :
  run_events ((env, ev) :: evs) s
  = after (trace (handle_event env ev s))
          (run_events evs (final (handle_event env ev s))).
Proof.
  unfold run_events; cbn [for_each fst snd]. unfold bind at 1, detached at 1.
  destruct (handle_event env ev s); reflexivity.
Qed.

Lemma run_events_outcome evs s : outcome (run_events evs s) = Done tt.
Proof.
  revert s; induction evs as [|[env ev] evs IH]; intro s.
  - reflexivity.
  - rewrite run_events_cons, outcome_after. apply IH.
Qed.

Lemma after_after {A} t t' (r : Run A) :
  after t (after t' r) = after (t ++ t') r.
Proof. destruct r; cbn. rewrite app_assoc. reflexivity. Qed.

Lemma run_events_app evs1 evs2 s :
  run_events (evs1 ++ evs2) s
  = after (trace (run_events evs1 s))
          (run_events evs2 (final (run_events evs1 s))).
Proof.
  revert s; induction evs1 as [|[env ev] evs1 IH]; intro s.
  - cbn [app]. rewrite run_events_nil; cbn. symmetry; apply after_nil.
  - cbn [app]. rewrite !run_events_cons, IH.
    rewrite final_after, trace_after, after_after. reflexivity.
Qed.

Lemma reachable_run evs s : reachable s -> reachable (final (run_events evs s)).
Proof.
  revert s; induction evs as [|[env ev] evs IH]; intros s H.
  - exact H.
  - rewrite run_events_cons, final_after. apply IH. constructor. exact H.
Qed.

(* ================================================================= *)
(** ** Transcript messages *)

Lemma onmessage_fragment env r t s :
  onmessage env (fragment_msg r t) s = mkRun (Done tt) (appended r t s) [].
Proof. destruct r; reflexivity. Qed.

Lemma onmessage_turn_complete env s :
  onmessage env turn_complete_msg s = mkRun (Done tt) (flushed s) [].
Proof.
  unfold onmessage, flushed, complete_turn; cbn.
  unfold bind, get; cbn.
  destruct (truthy (trim (fst (transcriptBufferRef s)))
            || truthy (trim (snd (transcriptBufferRef s)))); reflexivity.
Qed.

Lemma run_fragments frs s :
  run_events (map fragment_event frs) s
  = mkRun (Done tt)
      (setTranscriptBuffer
         (fst (transcriptBufferRef s) ++ joined user frs,
          snd (transcriptBufferRef s) ++ joined model frs) s)
      [].
Proof.
  revert s; induction frs as [|[env [r t]] frs IH]; intro s.
  - cbn. rewrite !app_nil_r. destruct s as [? ? ? ? ? ? ? ? ? ? ? ? [u m] ?].
    reflexivity.
  - cbn [map]. unfold fragment_event at 1. cbn [fst snd].
    rewrite run_events_cons. cbn [handle_event].
    rewrite onmessage_fragment. cbn [final trace after].
    rewrite IH. cbn [after app].
    destruct s as [? ? ? ? ? ? ? ? ? ? ? ? [u m] ?].
    destruct r; cbn; rewrite <- ?app_assoc, ?app_nil_r; reflexivity.
Qed.

Lemma flushed_twice s : flushed (flushed s) = flushed s.
Proof.
  unfold flushed. cbn.
  destruct (truthy _ || truthy _); reflexivity.
Qed.

Lemma turn_flush_general frs env s :
  let u := trim (fst (transcriptBufferRef s) ++ joined user frs) in
  let m := trim (snd (transcriptBufferRef s) ++ joined model frs) in
  let r := run_events
             (map fragment_event frs ++ [(env, Message turn_complete_msg)]) s in
  transcripts (final r)
  = (if truthy u || truthy m
     then firstn 30 (turn_entries u m ++ transcripts s)
     else transcripts s)
  /\ transcriptBufferRef (final r) = ([], [])
  /\ trace r = []
  /\ final r
     = flushed (setTranscriptBuffer
                  (fst (transcriptBufferRef s) ++ joined user frs,
                   snd (transcriptBufferRef s) ++ joined model frs) s).
Proof.
  intros u m r. subst r.
  rewrite run_events_app, run_fragments. cbn [final trace].
  rewrite run_events_cons. cbn [handle_event].
  rewrite onmessage_turn_complete. cbn [final trace run_events for_each ret after app].
  unfold flushed. cbn [transcriptBufferRef setTranscriptBuffer fst snd].
  fold u m.
  destruct (truthy u || truthy m); cbn; auto.
Qed.

Lemma truthy_nonempty (t : jsstring) : t <> [] -> truthy t = true.
Proof. destruct t; [congruence | reflexivity]. Qed.

Lemma trim_nil : trim [] = [].
Proof. reflexivity. Qed.

Lemma insert_entry env e s :
  transcriptBufferRef s = ([], []) -> finalized e ->
  final (run_events (entry_events env e) s)
  = setTranscripts (fun prev => firstn 30 (e :: prev)) s.
Proof.
  intros Hb [Ht Hne]. unfold entry_events.
  rewrite !run_events_cons. cbn [handle_event].
  rewrite onmessage_fragment. cbn [final trace].
  rewrite onmessage_turn_complete. cbn [final trace run_events for_each ret after app].
  destruct s as [? ? ? ? ? ? ? ? ? ? ? ? b ?]. cbn in Hb. subst b.
  destruct e as [r t]. cbn [text] in Ht, Hne.
  unfold flushed, appended.
  destruct r; cbn [transcriptBufferRef setTranscriptBuffer fst snd app type text];
    rewrite Ht, trim_nil, (truthy_nonempty Hne); cbn;
    unfold push_turn, turn_entries; rewrite (truthy_nonempty Hne); reflexivity.
Qed.

Lemma firstn_app_firstn {A} n (a b : list A) :
  firstn n (a ++ firstn n b) = firstn n (a ++ b).
Proof.
  rewrite !firstn_app, firstn_firstn.
  f_equal. f_equal. lia.
Qed.

Lemma insert_entries env es s :
  transcriptBufferRef s = ([], []) -> bounded_history s ->
  Forall finalized es ->
  let s' := final (run_events (flat_map (entry_events env) es) s) in
  transcripts s' = firstn 30 (rev es ++ transcripts s)
  /\ transcriptBufferRef s' = ([], []).
Proof.
  intros Hb Hs Hes. revert s Hb Hs.
  induction Hes as [|e es He Hes IH]; intros s Hb Hs; cbn zeta.
  - cbn [flat_map rev app]. rewrite run_events_nil. cbn [final].
    split; [|exact Hb].
    symmetry. apply firstn_all2. exact Hs.
  - cbn [flat_map]. rewrite run_events_app, final_after.
    rewrite (insert_entry env s Hb He).
    set (s1 := setTranscripts _ s).
    destruct (IH s1) as [IHt IHb].
    + exact Hb.
    + unfold bounded_history, s1; cbn [transcripts setTranscripts].
      rewrite length_firstn. lia.
    + split; [|exact IHb].
      rewrite IHt. unfold s1; cbn [transcripts setTranscripts].
      rewrite firstn_app_firstn. cbn [rev]. rewrite <- app_assoc. reflexivity.
Qed.

(* ================================================================= *)
(** ** The transcript aggregator *)

(** C3 (transcript turn flush).  Starting a turn with empty buffers, any
    sequence of fragment messages followed by one turn-completion message
    puts at the head of the history one entry per role whose trimmed
    buffer is not empty, the user's first; the text of an entry is the
    trimmed concatenation of that role's fragments in arrival order.  Both
    buffers are empty afterwards, whether or not an entry was produced,
    and a second turn-completion right after adds no entry and leaves the
    buffers empty. *)
Theorem transcript_turn_flush :
  forall (s : State) (frs : list (Env * (Role * jsstring))) (env1 env2 : Env),
    transcriptBufferRef s = ([], []) ->
    let u := trim (joined user frs) in
    let m := trim (joined model frs) in
    let r1 := run_events
                (map fragment_event frs ++ [(env1, Message turn_complete_msg)])
                s in
    let r2 := handle_event env2 (Message turn_complete_msg) (final r1) in
    transcripts (final r1)
    = (if truthy u || truthy m
       then firstn 30 (turn_entries u m ++ transcripts s)
       else transcripts s)
    /\ turn_entries u m
       = match u, m with
         | [], [] => []
         | _ :: _, [] => [mkEntry user u]
         | [], _ :: _ => [mkEntry model m]
         | _ :: _, _ :: _ => [mkEntry user u; mkEntry model m]
         end
    /\ transcriptBufferRef (final r1) = ([], [])
    /\ outcome r2 = Done tt
    /\ transcripts (final r2) = transcripts (final r1)
    /\ transcriptBufferRef (final r2) = ([], []).
Proof.
  intros s frs env1 env2 Hb u m r1 r2.
  destruct (turn_flush_general frs env1 s) as (Ht & Hbuf & _ & Hfin).
  rewrite Hb in Ht, Hfin. cbn [fst snd app] in Ht, Hfin.
  fold u m in Ht. fold r1 in Ht, Hbuf, Hfin.
  split; [exact Ht|].
  split; [unfold turn_entries; destruct u, m; reflexivity|].
  split; [exact Hbuf|].
  subst r2. cbn [handle_event]. rewrite onmessage_turn_complete.
  cbn [outcome final]. rewrite Hfin, flushed_twice.
  split; [reflexivity|]. split; [reflexivity|].
  rewrite <- Hfin. exact Hbuf.
Qed.

Lemma transcript_turn_flush_witness :
  transcriptBufferRef initial = ([], [])
  /\ transcripts
       (final (run_events
                 (map fragment_event scenario_B
                  ++ [(studio, Message turn_complete_msg)]) initial))
     = [mkEntry user [2438; 2478; 2495; 32; 2477; 2494; 2482; 2507]].
Proof.
  split; [reflexivity|].
  exact (proj1 (transcript_turn_flush initial scenario_B studio studio
                  eq_refl)).
Defined.

(** C4 (bounded history).  In every state the component can reach the
    history holds 30 entries at most; a finalized entry is put at the head
    of the history, which is then cut to its first 30; and 35 finalized
    entries inserted one at a time leave exactly 30 entries, the 30 most
    recent with the newest first: the 5 oldest are gone and the last one
    inserted is at the head. *)
Theorem bounded_history_newest_first :
  (forall s, reachable s -> (List.length (transcripts s) <= 30)%nat)
  /\ (forall env e s,
        transcriptBufferRef s = ([], []) -> finalized e ->
        transcripts (final (run_events (entry_events env e) s))
        = firstn 30 (e :: transcripts s))
  /\ (forall env es s,
        transcriptBufferRef s = ([], []) -> bounded_history s ->
        Forall finalized es -> List.length es = 35%nat ->
        let h := transcripts
                   (final (run_events (flat_map (entry_events env) es) s)) in
        h = rev (skipn 5 es)
        /\ List.length h = 30%nat
        /\ hd_error h = nth_error es 34).
Proof.
  split; [exact reachable_bounded|]. split.
  - intros env e s Hb He. rewrite (insert_entry env s Hb He). reflexivity.
  - intros env es s Hb Hs Hes Hlen h.
    destruct (insert_entries env Hb Hs Hes) as [Ht _]. fold h in Ht.
    clearbody h. subst h. clear Hes Hb Hs.
    do 35 (destruct es as [|? es]; [discriminate Hlen|]).
    destruct es; [|discriminate Hlen].
    repeat split.
Qed.

Lemma bounded_history_witness :
  transcriptBufferRef initial = ([], [])
  /\ bounded_history initial
  /\ Forall finalized sample_entries
  /\ List.length sample_entries = 35%nat
  /\ transcripts
       (final (run_events (flat_map (entry_events studio) sample_entries)
                 initial))
     = rev (skipn 5 sample_entries).
Proof.
  assert (Hf : Forall finalized sample_entries).
  { repeat constructor; discriminate. }
  assert (Hb : bounded_history initial).
  { unfold bounded_history; cbn; lia. }
  split; [reflexivity|]. split; [exact Hb|]. split; [exact Hf|].
  split; [reflexivity|].
  exact (proj1 (proj2 (proj2 bounded_history_newest_first)
                  studio sample_entries initial eq_refl Hb Hf eq_refl)).
Defined.

(* ================================================================= *)
(** ** Teardown *)

(** C9 (idempotent stop).  [cleanupSession] never throws, whatever the
    close and stop calls do.  It closes the channel, stops the capture
    tracks, closes both audio contexts and stops every scheduled source
    that the refs hold, and leaves every ref empty, the set of sources
    empty, the cursor at 0 and the session neither active nor connecting.
    A second call right after makes no call at all, raises nothing and
    leaves the same state. *)
Theorem cleanupSession_idempotent :
  forall (env1 env2 : Env) (s : State),
    let r1 := cleanupSession env1 s in
    let r2 := cleanupSession env2 (final r1) in
    outcome r1 = Done tt
    /\ trace r1 = cleanup_calls s
    /\ sessionRef (final r1) = None
    /\ streamRef (final r1) = None
    /\ audioContextInRef (final r1) = None
    /\ audioContextOutRef (final r1) = None
    /\ sourcesRef (final r1) = []
    /\ nextStartTimeRef (final r1) = 0
    /\ isActive (final r1) = false
    /\ isConnecting (final r1) = false
    /\ outcome r2 = Done tt
    /\ trace r2 = []
    /\ final r2 = final r1.
Proof.
  intros env1 env2 s r1 r2. subst r2 r1.
  rewrite !cleanupSession_run. cbn [final outcome trace].
  repeat split.
Qed.

(* ================================================================= *)
(** ** The playback scheduler *)

Lemma enqueue_audio_run env data s ctx d :
  audioContextOutRef s = Some ctx ->
  decodeAudio env data = Some d ->
  enqueue_audio env data s
  = mkRun (Done tt)
      (enqueued (N.max (nextStartTimeRef s) (now env)) d s)
      [SourceStart (nodeCount s) (N.max (nextStartTimeRef s) (now env)) d].
Proof.
  intros Hctx Hdec. unfold enqueue_audio. rewrite when_ref_run, Hctx.
  cbn [when_some]. rewrite get_bind, Hdec. destruct s; reflexivity.
Qed.

Lemma enqueue_audio_corrupt env data s ctx :
  audioContextOutRef s = Some ctx ->
  decodeAudio env data = None ->
  enqueue_audio env data s
  = mkRun (Thrown DecodeError)
      (setNextStartTime (N.max (nextStartTimeRef s) (now env)) s) [].
Proof.
  intros Hctx Hdec. unfold enqueue_audio. rewrite when_ref_run, Hctx.
  cbn [when_some]. rewrite get_bind, Hdec. reflexivity.
Qed.

Lemma onmessage_audio env data s ctx d :
  audioContextOutRef s = Some ctx -> data <> [] ->
  decodeAudio env data = Some d ->
  onmessage env (audio_msg data) s
  = mkRun (Done tt)
      (enqueued (N.max (nextStartTimeRef s) (now env)) d s)
      [SourceStart (nodeCount s) (N.max (nextStartTimeRef s) (now env)) d].
Proof.
  intros Hctx Hdata Hdec.
  unfold onmessage, audio_msg; cbn.
  rewrite (truthy_nonempty Hdata). rewrite !after_nil.
  rewrite (bind_done _ _ _ (enqueue_audio_run env data s Hctx Hdec)).
  reflexivity.
Qed.

Lemma onmessage_audio_corrupt env data s ctx :
  audioContextOutRef s = Some ctx -> data <> [] ->
  decodeAudio env data = None ->
  onmessage env (audio_msg data) s
  = mkRun (Thrown DecodeError)
      (setNextStartTime (N.max (nextStartTimeRef s) (now env)) s) [].
Proof.
  intros Hctx Hdata Hdec.
  unfold onmessage, audio_msg; cbn.
  rewrite (truthy_nonempty Hdata). rewrite !after_nil.
  rewrite (bind_thrown _ _ _ (enqueue_audio_corrupt env data s Hctx Hdec)).
  reflexivity.
Qed.

Lemma onmessage_interrupt env s :
  onmessage env interrupt_msg s
  = mkRun (Done tt) (setNextStartTime 0 (setSources [] s))
          (map SourceStop (sourcesRef s)).
Proof.
  unfold onmessage, interrupt_msg; cbn. rewrite !after_nil.
  apply interrupt_run.
Qed.

Lemma enqueue_event_run base c s ctx :
  audioContextOutRef s = Some ctx -> payload c <> [] ->
  handle_event (fst (enqueue_event base c)) (snd (enqueue_event base c)) s
  = mkRun (Done tt)
      (enqueued (N.max (nextStartTimeRef s) (arrival c)) (duration c) s)
      [SourceStart (nodeCount s) (N.max (nextStartTimeRef s) (arrival c))
         (duration c)].
Proof.
  intros Hctx Hp. unfold enqueue_event; cbn [fst snd handle_event].
  rewrite (onmessage_audio (chunk_env base c) s Hctx Hp (d := duration c))
    by reflexivity.
  reflexivity.
Qed.

Lemma timetable_schedule base chunks s ctx :
  audioContextOutRef s = Some ctx -> audible chunks ->
  timetable base chunks s = schedule (nextStartTimeRef s) chunks
  /\ nextStartTimeRef (final (run_events (map (enqueue_event base) chunks) s))
     = end_cursor (nextStartTimeRef s) chunks.
Proof.
  intros Hctx Ha. revert s Hctx.
  induction Ha as [|c chunks Hc Ha IH]; intros s Hctx.
  - split; reflexivity.
  - unfold timetable. cbn [map].
    destruct (enqueue_event base c) as [env ev] eqn:E.
    rewrite run_events_cons.
    pose proof (@enqueue_event_run base c s ctx Hctx Hc) as R.
    rewrite E in R; cbn [fst snd] in R. rewrite R.
    cbn [final trace]. rewrite trace_after, final_after. cbn [app starts].
    destruct (IH (enqueued (N.max (nextStartTimeRef s) (arrival c))
                    (duration c) s) Hctx) as [IHt IHc].
    unfold timetable in IHt. rewrite IHt, IHc. split; reflexivity.
Qed.

Lemma schedule_length cursor chunks :
  List.length (schedule cursor chunks) = List.length chunks.
Proof.
  revert cursor; induction chunks as [|c chunks IH]; intro cursor; cbn.
  - reflexivity.
  - rewrite IH. reflexivity.
Qed.

Lemma schedule_nth cursor chunks k c t d :
  nth_error chunks k = Some c ->
  nth_error (schedule cursor chunks) k = Some (t, d) ->
  d = duration c /\ arrival c <= t /\ cursor <= t.
Proof.
  revert cursor k; induction chunks as [|c0 chunks IH]; intros cursor k Hc Hs.
  - destruct k; discriminate Hc.
  - destruct k as [|k]; cbn in Hc, Hs.
    + injection Hc as ->. injection Hs as <- <-. repeat split; lia.
    + destruct (IH _ _ Hc Hs) as (Hd & Ha & Hcur). repeat split; try assumption.
      lia.
Qed.

Lemma schedule_next cursor chunks k c' t d t' d' :
  nth_error (schedule cursor chunks) k = Some (t, d) ->
  nth_error chunks (S k) = Some c' ->
  nth_error (schedule cursor chunks) (S k) = Some (t', d') ->
  t' = N.max (t + d) (arrival c').
Proof.
  revert cursor k; induction chunks as [|c0 chunks IH]; intros cursor k Hs Hc Hs'.
  - destruct k; discriminate Hs.
  - destruct k as [|k]; cbn in Hs, Hc, Hs'.
    + injection Hs as <- <-.
      destruct chunks as [|c1 chunks]; [discriminate Hc|].
      cbn in Hc, Hs'. injection Hc as ->. injection Hs' as <- _. reflexivity.
    + exact (IH _ _ Hs Hc Hs').
Qed.

(** C1 (gapless scheduling), as the code has it.  For chunks enqueued one
    after the other with no interruption between them, while the output
    context is there: every chunk is started once, with its own duration,
    and never before the clock reading at its enqueue; the first starts at
    the larger of the cursor and the clock; chunk k+1 starts at the larger
    of the end of chunk k and the clock reading at its own enqueue.  So it
    never starts before chunk k has ended, and it starts exactly when
    chunk k ends whenever it was enqueued by then; the cursor ends at the
    end of the last chunk. *)
Theorem gapless_schedule :
  forall (base : Env) (s : State) (ctx : handle) (chunks : list Chunk),
    audioContextOutRef s = Some ctx -> audible chunks ->
    let sched := timetable base chunks s in
    List.length sched = List.length chunks
    /\ (forall k c t d,
          nth_error chunks k = Some c -> nth_error sched k = Some (t, d) ->
          d = duration c /\ arrival c <= t)
    /\ (forall c t d,
          nth_error chunks 0 = Some c -> nth_error sched 0 = Some (t, d) ->
          t = N.max (nextStartTimeRef s) (arrival c))
    /\ (forall k c' t d t' d',
          nth_error sched k = Some (t, d) ->
          nth_error chunks (S k) = Some c' ->
          nth_error sched (S k) = Some (t', d') ->
          t' = N.max (t + d) (arrival c')
          /\ t + d <= t'
          /\ (arrival c' <= t + d -> t' = t + d))
    /\ nextStartTimeRef
         (final (run_events (map (enqueue_event base) chunks) s))
       = end_cursor (nextStartTimeRef s) chunks.
Proof.
  intros base s ctx chunks Hctx Ha sched.
  destruct (@timetable_schedule base chunks s ctx Hctx Ha) as [Ht Hc].
  subst sched. rewrite Ht.
  split; [apply schedule_length|].
  split.
  { intros k c t d Hk Hs. destruct (@schedule_nth _ _ _ _ _ _ Hk Hs) as (? & ? & _).
    split; assumption. }
  split.
  { intros c t d Hk Hs. destruct chunks as [|c0 chunks]; [discriminate Hk|].
    cbn in Hk, Hs. injection Hk as ->. injection Hs as <- _. reflexivity. }
  split; [|exact Hc].
  intros k c' t d t' d' Hs Hk Hs'.
  pose proof (@schedule_next _ _ _ _ _ _ _ _ Hs Hk Hs') as E.
  repeat split; lia.
Qed.

Lemma gapless_schedule_witness :
  audioContextOutRef active_state = Some 3%nat
  /\ audible scenario_A
  /\ timetable studio scenario_A active_state = [(0, 12000); (12000, 7200)]
  /\ nextStartTimeRef
       (final (run_events (map (enqueue_event studio) scenario_A)
                 active_state))
     = 19200.
Proof.
  assert (Ha : audible scenario_A).
  { repeat constructor; discriminate. }
  split; [reflexivity|]. split; [exact Ha|]. split; [reflexivity|].
  exact (proj2 (proj2 (proj2 (proj2
           (@gapless_schedule studio active_state 3%nat scenario_A eq_refl Ha))))).
Defined.

(** C1 read to the letter fails: a chunk enqueued after its predecessor
    has ended starts at the clock, later than the predecessor's end. *)
Lemma gapless_counterexample :
  timetable studio late_chunks active_state = [(0, 24000); (120000, 24000)]
  /\ ~ gapless_as_stated.
Proof.
  split; [reflexivity|].
  intro H.
  assert (Ha : audible late_chunks).
  { repeat constructor; discriminate. }
  specialize (H studio active_state 3%nat late_chunks eq_refl Ha
                O 0 24000 120000 24000 eq_refl eq_refl).
  discriminate H.
Qed.

(** C2 (interruption clears all).  Whatever events came before, an
    interruption message never throws, calls [stop] on every source of
    the active set, and leaves the set empty and the cursor at 0.  A
    second interruption, which finds the set empty, makes no call, never
    throws and changes nothing.  A chunk enqueued next is started exactly
    at the clock reading of its enqueue, whatever the cursor was before
    the interruption. *)
Theorem interruption_clears_all :
  forall (evs : list (Env * Event)) (env env' : Env) (s : State),
    let before := final (run_events evs s) in
    let r := handle_event env (Message interrupt_msg) before in
    let r' := handle_event env' (Message interrupt_msg) (final r) in
    outcome r = Done tt
    /\ trace r = map SourceStop (sourcesRef before)
    /\ sourcesRef (final r) = []
    /\ nextStartTimeRef (final r) = 0
    /\ outcome r' = Done tt
    /\ trace r' = []
    /\ final r' = final r
    /\ (forall (base : Env) (c : Chunk) (ctx : handle),
          audioContextOutRef (final r) = Some ctx -> payload c <> [] ->
          timetable base [c] (final r) = [(arrival c, duration c)]).
Proof.
  intros evs env env' s before r r'.
  subst r' r. cbn [handle_event]. rewrite !onmessage_interrupt.
  cbn [final outcome trace sourcesRef setNextStartTime setSources map].
  repeat (split; [reflexivity|]).
  intros base c ctx Hctx Hc.
  assert (Ha : audible [c]) by (repeat constructor; exact Hc).
  destruct (@timetable_schedule base [c] _ ctx Hctx Ha) as [Ht _].
  rewrite Ht. cbn. rewrite N.max_0_l. reflexivity.
Qed.

Lemma interruption_clears_all_witness :
  audioContextOutRef
    (final (handle_event studio (Message interrupt_msg)
              (final (run_events (map (enqueue_event studio) scenario_A)
                        active_state))))
  = Some 3%nat
  /\ payload (mkChunk 4800 (lit "UklGRg==") 2400) <> []
  /\ timetable studio [mkChunk 4800 (lit "UklGRg==") 2400]
       (final (handle_event studio (Message interrupt_msg)
                 (final (run_events (map (enqueue_event studio) scenario_A)
                           active_state))))
     = [(4800, 2400)].
Proof.
  assert (Hp : payload (mkChunk 4800 (lit "UklGRg==") 2400) <> [])
    by discriminate.
  split; [reflexivity|]. split; [exact Hp|].
  exact (proj2 (proj2 (proj2 (proj2 (proj2 (proj2 (proj2
           (@interruption_clears_all
              (map (enqueue_event studio) scenario_A) studio studio
              active_state)))))))
           studio (mkChunk 4800 (lit "UklGRg==") 2400) 3%nat eq_refl Hp).
Defined.

(** The rest of a message whose chunk does not decode is not handled: an
    interruption carried by the same message stops no source. *)
Remark decode_error_drops_interrupt :
  forall (env : Env) (s : State) (ctx : handle) (data : jsstring),
    audioContextOutRef s = Some ctx -> data <> [] ->
    decodeAudio env data = None ->
    let message :=
      mkMessage None
        (Some (mkServerContent None None false
                 (Some [mkPart None (Some data)]) true)) in
    trace (onmessage env message s) = []
    /\ sourcesRef (final (onmessage env message s)) = sourcesRef s.
Proof.
  intros env s ctx data Hctx Hdata Hdec message. subst message.
  unfold onmessage; cbn.
  rewrite (truthy_nonempty Hdata). rewrite !after_nil.
  rewrite (bind_thrown _ _ _ (@enqueue_audio_corrupt env data s ctx Hctx Hdec)).
  split; reflexivity.
Qed.

(** C6 (decode-error resilience), at the failing input: two chunks are
    playing, and a message arrives whose chunk does not decode and which
    signals an interruption.  The decode of line 230 stands in no
    [try]: the exception ends the handler there, and the interruption
    block of lines 243-247 is never reached.  No source is stopped, the
    set still holds both and the cursor still stands at their end,
    where the interruption alone would have stopped both, emptied the
    set and put the cursor back to 0. *)
Theorem decode_error_aborts_handler :
  let r := onmessage garbled corrupt_barge_in playing_state in
  let r' := onmessage garbled interrupt_msg playing_state in
  sourcesRef playing_state = [0%nat; 1%nat]
  /\ nextStartTimeRef playing_state = 19200
  /\ outcome r = Thrown DecodeError
  /\ trace r = []
  /\ sourcesRef (final r) = [0%nat; 1%nat]
  /\ nextStartTimeRef (final r) = 19200
  /\ outcome r' = Done tt
  /\ trace r' = [SourceStop 0%nat; SourceStop 1%nat]
  /\ sourcesRef (final r') = []
  /\ nextStartTimeRef (final r') = 0.
Proof. cbv zeta. repeat split. Qed.

(* ================================================================= *)
(** ** The tool dispatcher *)

Lemma eqb_eq (a b : jsstring) : JsString.eqb a b = true -> a = b.
Proof.
  revert b; induction a as [|x a IH]; intros [|y b] H; cbn in H;
    try discriminate; [reflexivity|].
  apply andb_prop in H. destruct H as [Hx Hab].
  apply N.eqb_eq in Hx. subst y. f_equal. apply IH, Hab.
Qed.

Lemma eqb_neq (a b : jsstring) : a <> b -> JsString.eqb a b = false.
Proof.
  intro H. destruct (JsString.eqb a b) eqn:E; [|reflexivity].
  exfalso. apply H, eqb_eq, E.
Qed.

Lemma onmessage_tool env calls s :
  onmessage env (tool_msg calls) s = dispatch_tool_calls env calls s.
Proof.
  unfold onmessage, tool_msg; cbn [toolCall serverContent when_some sc_field
                                    sc_flag audioData].
  unfold bind at 1.
  destruct (dispatch_tool_calls env calls s) as [[[]|x] s1 t1];
    cbn; rewrite ?app_nil_r; reflexivity.
Qed.

Lemma dispatch_one env fc s :
  dispatch_tool_calls env [fc] s = dispatch_call env fc s.
Proof.
  unfold dispatch_tool_calls; cbn [for_each]. unfold bind.
  destruct (dispatch_call env fc s) as [[[]|x] s1 t1];
    cbn; rewrite ?app_nil_r; reflexivity.
Qed.

Lemma store_first_image_run pre p post data s :
  Forall (fun q => inlineData q = None) pre ->
  inlineData p = Some data ->
  store_first_image (pre ++ p :: post) s
  = mkRun (Done tt) (setGeneratedImage (Some (data_url data)) s) [].
Proof.
  intros Hpre Hp. induction Hpre as [|q pre Hq Hpre IH]; cbn [app store_first_image].
  - rewrite Hp. reflexivity.
  - rewrite Hq. exact IH.
Qed.

Lemma handleGenerateImage_failure env prompt s :
  generateContent env prompt = GenRejected
  \/ generateContent env prompt = GenResponse [] ->
  handleGenerateImage env prompt s
  = mkRun (Done confirmation) (setIsGeneratingImage false s)
      [GenerateContent prompt; ConsoleError (lit "Image generation failed")].
Proof.
  intro H. unfold handleGenerateImage, request_image.
  destruct H as [H|H]; rewrite H; destruct s; reflexivity.
Qed.

Lemma handleGenerateImage_success env prompt s pre p post data others :
  generateContent env prompt = GenResponse ((pre ++ p :: post) :: others) ->
  Forall (fun q => inlineData q = None) pre ->
  inlineData p = Some data ->
  handleGenerateImage env prompt s
  = mkRun (Done confirmation)
      (setIsGeneratingImage false (setGeneratedImage (Some (data_url data)) s))
      [GenerateContent prompt].
Proof.
  intros H Hpre Hp. unfold handleGenerateImage, request_image. rewrite H.
  unfold bind, try_finally, try_catch, emit, modify, ret.
  cbn [after app].
  rewrite (@store_first_image_run pre p post data _ Hpre Hp).
  destruct s; reflexivity.
Qed.

(** C5 (tool side-effect failure).  When the image service rejects the
    request of a [generateImage] call, or answers without a candidate,
    the handler completes without an exception; it has asked the service
    once, logged the failure, and sent one tool response with the call's
    id and name and the fixed confirmation text.  No close or stop call
    is made; the artifact, the session, the playback state and the
    transcripts are as before, the only field written being
    [isGeneratingImage], left at false. *)
Theorem tool_failure_still_replies :
  forall (env : Env) (s : State) (fc : FunctionCall),
    fc_name fc = generateImage_name ->
    generateContent env (fc_prompt fc) = GenRejected
    \/ generateContent env (fc_prompt fc) = GenResponse [] ->
    let r := handle_event env (Message (tool_msg [fc])) s in
    outcome r = Done tt
    /\ trace r = [GenerateContent (fc_prompt fc);
                  ConsoleError (lit "Image generation failed");
                  SendToolResponse (fc_id fc) (fc_name fc) confirmation]
    /\ final r = setIsGeneratingImage false s
    /\ generatedImage (final r) = generatedImage s
    /\ (isActive (final r), sessionRef (final r), streamRef (final r),
        audioContextInRef (final r), audioContextOutRef (final r))
       = (isActive s, sessionRef s, streamRef s,
          audioContextInRef s, audioContextOutRef s)
    /\ (nextStartTimeRef (final r), sourcesRef (final r))
       = (nextStartTimeRef s, sourcesRef s)
    /\ (transcripts (final r), transcriptBufferRef (final r))
       = (transcripts s, transcriptBufferRef s).
Proof.
  intros env s fc Hname Hfail r. subst r. cbn [handle_event].
  rewrite onmessage_tool, dispatch_one. unfold dispatch_call.
  rewrite Hname. cbn [JsString.eqb generateImage_name].
  change (JsString.eqb generateImage_name generateImage_name) with true.
  cbv iota.
  rewrite (bind_done _ _ _ (@handleGenerateImage_failure env _ s Hfail)).
  cbn [emit after app outcome trace final].
  repeat split.
Qed.

Lemma tool_failure_still_replies_witness :
  fc_name cat_call = generateImage_name
  /\ (generateContent studio (fc_prompt cat_call) = GenRejected
      \/ generateContent studio (fc_prompt cat_call) = GenResponse [])
  /\ trace (handle_event studio (Message (tool_msg [cat_call])) active_state)
     = [GenerateContent (lit "a cat");
        ConsoleError (lit "Image generation failed");
        SendToolResponse (lit "call-1") (lit "generateImage") confirmation].
Proof.
  split; [reflexivity|]. split; [left; reflexivity|].
  exact (proj1 (proj2 (@tool_failure_still_replies studio active_state
                         cat_call eq_refl (or_introl eq_refl)))).
Defined.

(** C8 (tool dispatch, success path).  When a [generateImage] call
    arrives and the image service answers, the handler asks the service
    once, with the prompt of the call; the first part that carries inline
    data becomes the current artifact, as a PNG data URL, in place of any
    earlier one, the parts after it being ignored; and one tool response
    is sent, with the id and the name of the call and the fixed
    confirmation text. *)
Theorem tool_dispatch_success :
  forall (env : Env) (s : State) (fc : FunctionCall)
         (pre post : list Part) (p : Part) (data : jsstring)
         (others : list (list Part)),
    fc_name fc = generateImage_name ->
    generateContent env (fc_prompt fc)
    = GenResponse ((pre ++ p :: post) :: others) ->
    Forall (fun q => inlineData q = None) pre ->
    inlineData p = Some data ->
    let r := handle_event env (Message (tool_msg [fc])) s in
    outcome r = Done tt
    /\ trace r = [GenerateContent (fc_prompt fc);
                  SendToolResponse (fc_id fc) (fc_name fc) confirmation]
    /\ generatedImage (final r) = Some (data_url data)
    /\ final r
       = setIsGeneratingImage false
           (setGeneratedImage (Some (data_url data)) s).
Proof.
  intros env s fc pre post p data others Hname Hgen Hpre Hp r.
  subst r. cbn [handle_event].
  rewrite onmessage_tool, dispatch_one. unfold dispatch_call.
  rewrite Hname.
  change (JsString.eqb generateImage_name generateImage_name) with true.
  cbv iota.
  rewrite (bind_done _ _ _
             (@handleGenerateImage_success env _ s pre p post data others
                Hgen Hpre Hp)).
  cbn [emit after app outcome trace final].
  repeat split.
Qed.

Lemma tool_dispatch_success_witness :
  fc_name cat_call = generateImage_name
  /\ generateContent painter (fc_prompt cat_call)
     = GenResponse
         (([mkPart (Some (lit "a cat")) None]
           ++ mkPart None (Some (lit "iVBORw0KGgo="))
              :: [mkPart None (Some (lit "R0lGODlh"))]) :: [])
  /\ Forall (fun q => inlineData q = None) [mkPart (Some (lit "a cat")) None]
  /\ generatedImage
       (final (handle_event painter (Message (tool_msg [cat_call]))
                 active_state))
     = Some (lit "data:image/png;base64,iVBORw0KGgo=").
Proof.
  assert (Hpre : Forall (fun q => inlineData q = None)
                   [mkPart (Some (lit "a cat")) None]).
  { repeat constructor. }
  split; [reflexivity|]. split; [reflexivity|]. split; [exact Hpre|].
  exact (proj1 (proj2 (proj2
           (@tool_dispatch_success painter active_state cat_call
              [mkPart (Some (lit "a cat")) None]
              [mkPart None (Some (lit "R0lGODlh"))]
              (mkPart None (Some (lit "iVBORw0KGgo=")))
              (lit "iVBORw0KGgo=") [] eq_refl eq_refl Hpre eq_refl)))).
Defined.

Lemma dispatch_call_other env fc :
  fc_name fc <> generateImage_name -> dispatch_call env fc = ret tt.
Proof.
  intro H. unfold dispatch_call. rewrite (@eqb_neq _ _ H). reflexivity.
Qed.

Lemma dispatch_without env fc before rest s :
  fc_name fc <> generateImage_name ->
  dispatch_tool_calls env (before ++ fc :: rest) s
  = dispatch_tool_calls env (before ++ rest) s.
Proof.
  intro H. unfold dispatch_tool_calls. revert s.
  induction before as [|x before IH]; intro s; cbn [app for_each].
  - rewrite (@dispatch_call_other env fc H). unfold bind, ret. apply after_nil.
  - unfold bind. destruct (dispatch_call env x s) as [[[]|e] s1 t1].
    + rewrite IH. reflexivity.
    + reflexivity.
Qed.

(** C10 (calls for another tool).  A function call whose name is not
    [generateImage] is passed over: the handler asks no service, sends no
    tool response and leaves the whole state as it was.  A message made of
    that call alone changes nothing at all, and in any message the call
    can be struck out without changing what the handler does. *)
Theorem unknown_tool_ignored :
  forall (env : Env) (s : State) (fc : FunctionCall),
    fc_name fc <> generateImage_name ->
    dispatch_call env fc s = mkRun (Done tt) s []
    /\ handle_event env (Message (tool_msg [fc])) s = mkRun (Done tt) s []
    /\ (forall before rest sc,
          onmessage env (mkMessage (Some (before ++ fc :: rest)) sc) s
          = onmessage env (mkMessage (Some (before ++ rest)) sc) s).
Proof.
  intros env s fc H.
  assert (H1 : dispatch_call env fc s = mkRun (Done tt) s []).
  { rewrite (@dispatch_call_other env fc H). reflexivity. }
  split; [exact H1|]. split.
  - cbn [handle_event]. rewrite onmessage_tool, dispatch_one. exact H1.
  - intros before rest sc. unfold onmessage.
    cbn [toolCall serverContent when_some].
    unfold bind at 1. unfold bind at 6.
    rewrite (@dispatch_without env fc before rest s H). reflexivity.
Qed.

Lemma unknown_tool_ignored_witness :
  fc_name weather_call <> generateImage_name
  /\ handle_event painter (Message (tool_msg [weather_call])) active_state
     = mkRun (Done tt) active_state [].
Proof.
  assert (H : fc_name weather_call <> generateImage_name) by discriminate.
  split; [exact H|].
  exact (proj1 (proj2 (@unknown_tool_ignored painter active_state
                         weather_call H))).
Defined.

(* ================================================================= *)
(** ** Acquisition *)

Lemma startSession_mic_denied env s :
  getUserMedia env = None ->
  startSession env s
  = mkRun (Done tt)
      (setIsConnecting false (setError (Some unreachable_message) s))
      [ConsoleError (lit "Failed to start session:")].
Proof.
  intro H. unfold startSession, await_option. rewrite H.
  destruct s; reflexivity.
Qed.

Lemma startSession_connect_failed env s stream :
  getUserMedia env = Some stream -> connect env = None ->
  startSession env s
  = mkRun (Done tt)
      (setIsConnecting false
         (setError (Some unreachable_message)
            (setAudioContextOut (Some (snd (newContexts env)))
               (setAudioContextIn (Some (fst (newContexts env)))
                  (setStreamRef (Some stream) s)))))
      [MicOpen stream; ContextOpen (fst (newContexts env));
       ContextOpen (snd (newContexts env));
       ConsoleError (lit "Failed to start session:")].
Proof.
  intros Hm Hc. unfold startSession, await_option. rewrite Hm, Hc.
  destruct s; reflexivity.
Qed.

(** C7 (acquisition-failure cleanup), at the failing input: the
    microphone is granted and the connection fails.  The catch block
    reports the failure and leaves the session neither connecting nor
    active, but it releases nothing: no track is stopped and no context
    closed, and the refs keep the stream and both contexts.  Pressing the
    button again acquires new devices over them, the first stream still
    running. *)
Theorem acquisition_failure_keeps_devices :
  let r := handle_event no_network ToggleClick initial in
  let r' := handle_event second_attempt ToggleClick (final r) in
  outcome r = Done tt
  /\ error (final r) = Some unreachable_message
  /\ isConnecting (final r) = false
  /\ isActive (final r) = false
  /\ trace r = [MicOpen 1%nat; ContextOpen 2%nat; ContextOpen 3%nat;
                ConsoleError (lit "Failed to start session:")]
  /\ streamRef (final r) = Some 1%nat
  /\ audioContextInRef (final r) = Some 2%nat
  /\ audioContextOutRef (final r) = Some 3%nat
  /\ trace r' = [MicOpen 5%nat; ContextOpen 6%nat; ContextOpen 7%nat;
                 ChannelOpen 8%nat]
  /\ streamRef (final r') = Some 5%nat.
Proof. cbv zeta. repeat split. Qed.

(* ================================================================= *)
(** ** The session over its life *)

Lemma startSession_granted env s stream ch :
  getUserMedia env = Some stream -> connect env = Some ch ->
  startSession env s
  = mkRun (Done tt) (started env stream ch s)
      [MicOpen stream; ContextOpen (fst (newContexts env));
       ContextOpen (snd (newContexts env)); ChannelOpen ch].
Proof.
  intros Hm Hc. unfold startSession, await_option. rewrite Hm, Hc.
  destruct s; reflexivity.
Qed.

Lemma toggle_idle env s :
  isActive s = false -> isConnecting s = false ->
  handle_event env ToggleClick s = startSession env s.
Proof.
  intros Ha Hc. cbn [handle_event]. rewrite get_bind, Hc, Ha. reflexivity.
Qed.

Lemma toggle_active env s :
  isActive s = true -> isConnecting s = false ->
  handle_event env ToggleClick s = cleanupSession env s.
Proof.
  intros Ha Hc. cbn [handle_event]. rewrite get_bind, Hc, Ha. reflexivity.
Qed.

(** X1.  The button pressed twice on an idle session, the devices and the
    channel being granted: the second press closes the channel, stops the
    stream and closes both contexts that the first one opened, and the
    session is left stopped, with every ref empty and the earlier error
    message cleared. *)
Theorem start_then_stop_releases :
  forall (env env' : Env) (s : State) (stream ch : handle),
    isActive s = false -> isConnecting s = false ->
    getUserMedia env = Some stream -> connect env = Some ch ->
    let r := run_events [(env, ToggleClick); (env', ToggleClick)] s in
    trace r
    = [MicOpen stream; ContextOpen (fst (newContexts env));
       ContextOpen (snd (newContexts env)); ChannelOpen ch;
       ChannelClose ch; TrackStop stream;
       ContextClose (fst (newContexts env));
       ContextClose (snd (newContexts env))]
      ++ map SourceStop (sourcesRef s)
    /\ final r = cleaned (setError None s).
Proof.
  intros env env' s stream ch Ha Hc Hm Hch r. subst r.
  rewrite !run_events_cons, run_events_nil.
  rewrite (toggle_idle env s Ha Hc).
  rewrite (@startSession_granted env s stream ch Hm Hch).
  cbn [final trace].
  rewrite (toggle_active env' (started env stream ch s) eq_refl eq_refl).
  rewrite cleanupSession_run. cbn [final trace after app].
  split.
  - unfold cleanup_calls, started; cbn. rewrite app_nil_r. reflexivity.
  - destruct s; reflexivity.
Qed.

Lemma start_then_stop_releases_witness :
  isActive initial = false /\ isConnecting initial = false
  /\ getUserMedia studio = Some 1%nat /\ connect studio = Some 4%nat
  /\ final (run_events [(studio, ToggleClick); (studio, ToggleClick)] initial)
     = initial.
Proof.
  repeat (split; [reflexivity|]).
  exact (proj2 (@start_then_stop_releases studio studio initial 1%nat 4%nat
                  eq_refl eq_refl eq_refl eq_refl)).
Defined.

(** X2.  When the microphone is refused, [startSession] opens no device
    and no channel: it logs, shows the message of line 264 and clears
    [isConnecting]; every ref, the cursor and the set of sources are as
    before, so nothing is left to release. *)
Theorem mic_denied_acquires_nothing :
  forall (env : Env) (s : State),
    getUserMedia env = None ->
    let r := startSession env s in
    outcome r = Done tt
    /\ trace r = [ConsoleError (lit "Failed to start session:")]
    /\ final r = setIsConnecting false (setError (Some unreachable_message) s)
    /\ (sessionRef (final r), streamRef (final r),
        audioContextInRef (final r), audioContextOutRef (final r))
       = (sessionRef s, streamRef s, audioContextInRef s, audioContextOutRef s).
Proof.
  intros env s H r. subst r.
  rewrite (@startSession_mic_denied env s H). repeat split.
Qed.

Lemma mic_denied_acquires_nothing_witness :
  getUserMedia
    (mkEnv 0 (fun _ => None) (fun _ => GenRejected) (fun _ => false)
       None (2%nat, 3%nat) (Some 4%nat)) = None
  /\ streamRef
       (final (startSession
                 (mkEnv 0 (fun _ => None) (fun _ => GenRejected)
                    (fun _ => false) None (2%nat, 3%nat) (Some 4%nat))
                 initial))
     = None.
Proof.
  split; [reflexivity|].
  pose proof (@mic_denied_acquires_nothing
                (mkEnv 0 (fun _ => None) (fun _ => GenRejected)
                   (fun _ => false) None (2%nat, 3%nat) (Some 4%nat))
                initial eq_refl) as H.
  exact (f_equal (fun q => snd (fst (fst q))) (proj2 (proj2 (proj2 H)))).
Defined.

(** X3.  A channel error tears the session down like a stop and leaves
    the message of line 251 on display; the close event that follows it
    makes no call and leaves the state, message included, as it is. *)
Theorem error_then_close :
  forall (env env' : Env) (s : State),
    let r := handle_event env ChannelError s in
    let r' := handle_event env' ChannelClosed (final r) in
    outcome r = Done tt
    /\ trace r = ConsoleError (lit "Session Error:") :: cleanup_calls s
    /\ final r = cleaned (setError (Some interrupted_message) s)
    /\ outcome r' = Done tt
    /\ trace r' = []
    /\ final r' = final r
    /\ error (final r') = Some interrupted_message.
Proof.
  intros env env' s r r'. subst r' r. cbn [handle_event].
  unfold onerror, onclose.
  assert (E : (emit (ConsoleError (lit "Session Error:"));;
               modify (setError (Some interrupted_message));;
               cleanupSession env) s
              = mkRun (Done tt) (cleaned (setError (Some interrupted_message) s))
                  (ConsoleError (lit "Session Error:") :: cleanup_calls s)).
  { unfold bind at 1. cbn [emit]. unfold bind at 1. cbn [modify].
    rewrite cleanupSession_run. reflexivity. }
  rewrite E. cbn [final outcome trace]. rewrite cleanupSession_run.
  cbn [final outcome trace]. repeat split.
Qed.

(* ================================================================= *)
(** ** The tool handler, whatever the service answers *)

Lemma store_first_image_any parts s :
  store_first_image parts s
  = mkRun (Done tt)
      (match first_inline parts with
       | Some data => setGeneratedImage (Some (data_url data)) s
       | None => s
       end) [].
Proof.
  unfold first_inline.
  induction parts as [|p rest IH]; cbn [store_first_image find].
  - reflexivity.
  - unfold has_inline at 1. destruct (inlineData p) as [data|] eqn:E.
    + rewrite E. reflexivity.
    + exact IH.
Qed.

Lemma handleGenerateImage_run env prompt s :
  handleGenerateImage env prompt s
  = mkRun (Done confirmation)
      (setIsGeneratingImage false
         (setGeneratedImage (image_after env prompt s) s))
      (GenerateContent prompt :: image_log env prompt).
Proof.
  unfold handleGenerateImage, request_image, image_after, image_log.
  destruct (generateContent env prompt) as [|[|parts others]].
  - destruct s; reflexivity.
  - destruct s; reflexivity.
  - unfold bind, try_finally, try_catch, emit, modify, ret.
    cbn [after app]. rewrite store_first_image_any.
    destruct (first_inline parts); destruct s; reflexivity.
Qed.

Lemma dispatch_call_run env fc s :
  dispatch_call env fc s
  = if is_generateImage fc
    then mkRun (Done tt)
           (setIsGeneratingImage false
              (setGeneratedImage (image_after env (fc_prompt fc) s) s))
           (GenerateContent (fc_prompt fc) :: image_log env (fc_prompt fc)
            ++ [SendToolResponse (fc_id fc) (fc_name fc) confirmation])
    else mkRun (Done tt) s [].
Proof.
  unfold dispatch_call, is_generateImage.
  destruct (JsString.eqb (fc_name fc) generateImage_name); [|reflexivity].
  rewrite (bind_done _ _ _ (handleGenerateImage_run env (fc_prompt fc) s)).
  reflexivity.
Qed.

Lemma first_inline_none parts :
  Forall (fun q => inlineData q = None) parts -> first_inline parts = None.
Proof.
  intro H. unfold first_inline. induction H as [|q parts Hq _ IH]; cbn [find].
  - reflexivity.
  - unfold has_inline at 1. rewrite Hq. exact IH.
Qed.

(** X5.  When the image service answers a [generateImage] call with
    parts none of which carries inline data, the handler logs nothing and
    keeps the artifact it had, and still sends the confirmation text as
    the tool response. *)
Theorem no_image_still_confirmed :
  forall (env : Env) (s : State) (fc : FunctionCall)
         (parts : list Part) (others : list (list Part)),
    fc_name fc = generateImage_name ->
    generateContent env (fc_prompt fc) = GenResponse (parts :: others) ->
    Forall (fun q => inlineData q = None) parts ->
    let r := handle_event env (Message (tool_msg [fc])) s in
    outcome r = Done tt
    /\ trace r = [GenerateContent (fc_prompt fc);
                  SendToolResponse (fc_id fc) (fc_name fc) confirmation]
    /\ final r = setIsGeneratingImage false s.
Proof.
  intros env s fc parts others Hname Hgen Hparts r. subst r.
  cbn [handle_event]. rewrite onmessage_tool, dispatch_one, dispatch_call_run.
  unfold is_generateImage. rewrite Hname.
  change (JsString.eqb generateImage_name generateImage_name) with true.
  cbv iota. unfold image_after, image_log. rewrite Hgen.
  rewrite (first_inline_none Hparts). cbn [app outcome trace final].
  split; [reflexivity|]. split; [reflexivity|]. destruct s; reflexivity.
Qed.

Lemma no_image_still_confirmed_witness :
  fc_name cat_call = generateImage_name
  /\ generateContent captioner (fc_prompt cat_call)
     = GenResponse ([mkPart (Some (lit "a cat")) None] :: [])
  /\ Forall (fun q => inlineData q = None) [mkPart (Some (lit "a cat")) None]
  /\ trace (handle_event captioner (Message (tool_msg [cat_call]))
              active_state)
     = [GenerateContent (lit "a cat");
        SendToolResponse (lit "call-1") (lit "generateImage") confirmation].
Proof.
  assert (Hp : Forall (fun q => inlineData q = None)
                 [mkPart (Some (lit "a cat")) None]).
  { repeat constructor. }
  split; [reflexivity|]. split; [reflexivity|]. split; [exact Hp|].
  exact (proj1 (proj2 (@no_image_still_confirmed captioner active_state
                         cat_call [mkPart (Some (lit "a cat")) None] []
                         eq_refl eq_refl Hp))).
Defined.

(* ================================================================= *)
(** ** Invariants of the reachable states *)

Section HandlerPreservation.

Variable P : State -> Prop.
Variable env : Env.

Hypothesis P_tools : forall calls, preserves P (dispatch_tool_calls env calls).
Hypothesis P_user : forall t, preserves P (append_user t).
Hypothesis P_model : forall t, preserves P (append_model t).
Hypothesis P_turn : preserves P complete_turn.
Hypothesis P_audio : forall data, preserves P (enqueue_audio env data).
Hypothesis P_interrupt : preserves P (interrupt env).

Lemma onmessage_preserves m : preserves P (onmessage env m).
Proof.
  unfold onmessage.
  apply preserves_bind; [apply preserves_when_some, P_tools | intros _].
  apply preserves_bind; [apply preserves_when_some, P_user | intros _].
  apply preserves_bind; [apply preserves_when_some, P_model | intros _].
  apply preserves_bind;
    [destruct (sc_flag turnComplete _); [exact P_turn | apply preserves_ret]
    | intros _].
  apply preserves_bind.
  - apply preserves_when_some. intro data.
    destruct (truthy data); [apply P_audio | apply preserves_ret].
  - intros _.
    destruct (sc_flag interrupted _); [exact P_interrupt | apply preserves_ret].
Qed.

Hypothesis P_cleanup : preserves P (cleanupSession env).
Hypothesis P_start : preserves P (startSession env).
Hypothesis P_ended : forall source, preserves P (onended source).
Hypothesis P_error : forall e s, P s -> P (setError e s).
Hypothesis P_image : forall i s, P s -> P (setGeneratedImage i s).

Lemma handle_event_preserves ev : preserves P (handle_event env ev).
Proof.
  destruct ev as [m|source| | | |]; cbn [handle_event].
  - apply onmessage_preserves.
  - apply P_ended.
  - unfold onerror.
    apply preserves_bind; [apply preserves_emit | intros _].
    apply preserves_bind; [apply preserves_modify, P_error | intros _].
    exact P_cleanup.
  - exact P_cleanup.
  - apply preserves_bind; [apply preserves_get | intro s0].
    destruct (isConnecting s0); [apply preserves_ret|].
    destruct (isActive s0); [exact P_cleanup | exact P_start].
  - apply preserves_modify, P_image.
Qed.

End HandlerPreservation.

Lemma reachable_ind_preserved (P : State -> Prop) :
  P initial ->
  (forall env ev, preserves P (handle_event env ev)) ->
  forall s, reachable s -> P s.
Proof.
  intros H0 Hstep s Hs. induction Hs as [|s env ev _ IH].
  - exact H0.
  - apply Hstep, IH.
Qed.

(** Handlers that leave a property alone because they write none of the
    fields it reads. *)
Ltac frame :=
  preserve;
  try (apply store_first_image_preserves; intros ? ? H; exact H);
  try (apply preserves_modify; intros ? H; exact H).

Lemma cleanupSession_final env s : final (cleanupSession env s) = cleaned s.
Proof. rewrite cleanupSession_run. reflexivity. Qed.

Lemma startSession_cases env s :
  final (startSession env s)
  = match getUserMedia env, connect env with
    | None, _ => setIsConnecting false (setError (Some unreachable_message) s)
    | Some stream, None =>
        setIsConnecting false
          (setError (Some unreachable_message)
             (setAudioContextOut (Some (snd (newContexts env)))
                (setAudioContextIn (Some (fst (newContexts env)))
                   (setStreamRef (Some stream) s))))
    | Some stream, Some ch => started env stream ch s
    end.
Proof.
  destruct (getUserMedia env) as [stream|] eqn:Hm.
  - destruct (connect env) as [ch|] eqn:Hc.
    + rewrite (@startSession_granted env s stream ch Hm Hc). reflexivity.
    + rewrite (@startSession_connect_failed env s stream Hm Hc). reflexivity.
  - rewrite (@startSession_mic_denied env s Hm).
    destruct (connect env); reflexivity.
Qed.

Lemma enqueue_audio_cases env data s :
  final (enqueue_audio env data s)
  = match audioContextOutRef s with
    | None => s
    | Some _ =>
        match decodeAudio env data with
        | None => setNextStartTime (N.max (nextStartTimeRef s) (now env)) s
        | Some d => enqueued (N.max (nextStartTimeRef s) (now env)) d s
        end
    end.
Proof.
  destruct (audioContextOutRef s) as [ctx|] eqn:Hctx.
  - destruct (decodeAudio env data) as [d|] eqn:Hdec.
    + rewrite (@enqueue_audio_run env data s ctx d Hctx Hdec). reflexivity.
    + rewrite (@enqueue_audio_corrupt env data s ctx Hctx Hdec). reflexivity.
  - unfold enqueue_audio. rewrite when_ref_run, Hctx. reflexivity.
Qed.

Lemma set_add_fresh x l : ~ In x l -> set_add x l = l ++ [x].
Proof.
  intro H. unfold set_add.
  destruct (existsb (Nat.eqb x) l) eqn:E; [|reflexivity].
  apply existsb_exists in E. destruct E as (y & Hy & Hxy).
  apply Nat.eqb_eq in Hxy. subst y. contradiction.
Qed.

Lemma fresh_node s :
  well_formed_sources s -> ~ In (nodeCount s) (sourcesRef s).
Proof.
  intros [_ Hlt] Hin. rewrite Forall_forall in Hlt.
  specialize (Hlt _ Hin). lia.
Qed.

Lemma enqueued_well_formed t d s :
  well_formed_sources s -> well_formed_sources (enqueued t d s).
Proof.
  intros Hs. pose proof (fresh_node Hs) as Hfresh. destruct Hs as [Hnd Hlt].
  unfold well_formed_sources, enqueued;
    cbn [sourcesRef nodeCount]. rewrite (@set_add_fresh _ _ Hfresh).
  split.
  - apply NoDup_app; [exact Hnd | repeat constructor; intros [] |].
    intros x Hx [Hx'|[]]. subst x. contradiction.
  - apply Forall_app. split.
    + eapply Forall_impl; [|exact Hlt]. cbn; intros; lia.
    + repeat constructor.
Qed.

Lemma set_delete_well_formed x s :
  well_formed_sources s ->
  well_formed_sources (setSources (set_delete x (sourcesRef s)) s).
Proof.
  intros [Hnd Hlt]. unfold well_formed_sources, set_delete;
    cbn [sourcesRef nodeCount setSources].
  split.
  - apply NoDup_filter, Hnd.
  - rewrite Forall_forall in *. intros y Hy.
    apply filter_In in Hy. apply Hlt, Hy.
Qed.

Lemma reachable_well_formed :
  forall s, reachable s -> well_formed_sources s.
Proof.
  apply reachable_ind_preserved.
  - split; constructor.
  - intros env ev. apply handle_event_preserves.
    + intro calls.
      unfold dispatch_tool_calls, dispatch_call, handleGenerateImage. frame.
    + intro t. unfold append_user. frame.
    + intro t. unfold append_model. frame.
    + unfold complete_turn. frame.
    + intros data s H. rewrite enqueue_audio_cases.
      destruct (audioContextOutRef s); [|exact H].
      destruct (decodeAudio env data);
        [apply enqueued_well_formed, H | exact H].
    + intros s _. rewrite interrupt_run. split; constructor.
    + intros s _. rewrite cleanupSession_final. split; constructor.
    + intros s H. rewrite startSession_cases.
      destruct (getUserMedia env); [destruct (connect env)|]; exact H.
    + intros source s H. apply set_delete_well_formed, H.
    + intros e s H. exact H.
    + intros i s H. exact H.
Qed.

(* ================================================================= *)
(** ** Further properties of the scheduler *)

Lemma set_delete_absent x l : ~ In x l -> set_delete x l = l.
Proof.
  intro H. unfold set_delete. induction l as [|y l IH]; [reflexivity|].
  cbn [filter]. destruct (Nat.eqb x y) eqn:E.
  - apply Nat.eqb_eq in E. subst y. exfalso. apply H. left. reflexivity.
  - cbn [negb]. rewrite IH; [reflexivity|]. intro Hin. apply H. right. exact Hin.
Qed.

Lemma set_delete_last x l : ~ In x l -> set_delete x (l ++ [x]) = l.
Proof.
  intro H. unfold set_delete. rewrite filter_app. cbn [filter].
  rewrite Nat.eqb_refl. cbn [negb]. rewrite app_nil_r.
  exact (@set_delete_absent _ _ H).
Qed.

Lemma set_delete_In x y l : In y (set_delete x l) <-> In y l /\ y <> x.
Proof.
  unfold set_delete. rewrite filter_In. split; intros [Hin H]; split; try exact Hin.
  - intro E. subst y. rewrite Nat.eqb_refl in H. discriminate H.
  - destruct (Nat.eqb x y) eqn:E; [|reflexivity].
    apply Nat.eqb_eq in E. symmetry in E. contradiction.
Qed.

(** X8.  Schedule a chunk, let it play to its end: once the ['ended']
    event of the source that was started is handled, the set of active
    sources is what it was before the chunk, while the cursor stays
    at the end of the chunk. *)
Theorem enqueue_then_ended :
  forall (env env' : Env) (s : State) (ctx : handle) (data : jsstring) (d : N),
    reachable s ->
    audioContextOutRef s = Some ctx -> data <> [] ->
    decodeAudio env data = Some d ->
    let r := handle_event env (Message (audio_msg data)) s in
    let r' := handle_event env' (Ended (nodeCount s)) (final r) in
    trace r = [SourceStart (nodeCount s)
                 (N.max (nextStartTimeRef s) (now env)) d]
    /\ sourcesRef (final r) = sourcesRef s ++ [nodeCount s]
    /\ sourcesRef (final r') = sourcesRef s
    /\ nextStartTimeRef (final r')
       = N.max (nextStartTimeRef s) (now env) + d.
Proof.
  intros env env' s ctx data d Hr Hctx Hdata Hdec r r'. subst r' r.
  pose proof (fresh_node (reachable_well_formed Hr)) as Hfresh.
  cbn [handle_event].
  rewrite (@onmessage_audio env data s ctx d Hctx Hdata Hdec).
  cbn [final trace]. unfold onended, modify, enqueued.
  cbn [final sourcesRef nextStartTimeRef setSources].
  rewrite (@set_add_fresh _ _ Hfresh), (@set_delete_last _ _ Hfresh).
  repeat split.
Qed.

Lemma enqueue_then_ended_witness :
  reachable active_state
  /\ audioContextOutRef active_state = Some 3%nat
  /\ lit "UklGRg==" <> []
  /\ decodeAudio studio (lit "UklGRg==") = Some 24000
  /\ sourcesRef
       (final (handle_event studio (Ended (nodeCount active_state))
                 (final (handle_event studio
                           (Message (audio_msg (lit "UklGRg==")))
                           active_state))))
     = sourcesRef active_state.
Proof.
  assert (Hr : reachable active_state)
    by exact (reach_step studio ToggleClick reach_initial).
  assert (Hd : lit "UklGRg==" <> []) by discriminate.
  split; [exact Hr|]. split; [reflexivity|]. split; [exact Hd|].
  split; [reflexivity|].
  exact (proj1 (proj2 (proj2
           (@enqueue_then_ended studio studio active_state 3%nat
              (lit "UklGRg==") 24000 Hr eq_refl Hd eq_refl)))).
Defined.

(** X9.  The ['ended'] listener takes its own source out of the set and
    no other; for a source that is not in the set it changes nothing.  So
    the ['ended'] events that reach the component after an interruption
    or after a stop, for sources already dropped, leave the state as it
    is. *)
Theorem ended_removes_only_its_source :
  forall (env env' : Env) (s : State) (source : handle),
    outcome (handle_event env (Ended source) s) = Done tt
    /\ trace (handle_event env (Ended source) s) = []
    /\ (forall y, In y (sourcesRef (final (handle_event env (Ended source) s)))
                  <-> In y (sourcesRef s) /\ y <> source)
    /\ (~ In source (sourcesRef s) ->
        final (handle_event env (Ended source) s) = s)
    /\ final (handle_event env' (Ended source)
                (final (handle_event env (Message interrupt_msg) s)))
       = final (handle_event env (Message interrupt_msg) s)
    /\ final (handle_event env' (Ended source)
                (final (handle_event env ChannelClosed s)))
       = final (handle_event env ChannelClosed s).
Proof.
  intros env env' s source. cbn [handle_event]. unfold onended, onclose, modify.
  cbn [outcome trace final sourcesRef setSources].
  split; [reflexivity|]. split; [reflexivity|].
  split; [intro y; apply set_delete_In|].
  split.
  - intro H. rewrite (@set_delete_absent _ _ H). destruct s; reflexivity.
  - rewrite onmessage_interrupt, cleanupSession_run. cbn [final].
    split; reflexivity.
Qed.

Lemma ended_removes_only_its_source_witness :
  ~ In 7%nat (sourcesRef active_state)
  /\ final (handle_event studio (Ended 7%nat) active_state) = active_state.
Proof.
  assert (H : ~ In 7%nat (sourcesRef active_state)) by (intros []).
  split; [exact H|].
  exact (proj1 (proj2 (proj2 (proj2
           (ended_removes_only_its_source studio studio active_state 7%nat))))
           H).
Defined.

(** X10.  Audio that arrives while there is no output context (before a
    start, after a stop or a channel error) is dropped without being
    decoded: the handler makes no call, changes nothing and does not
    throw, even when the payload would not decode. *)
Theorem audio_without_context_dropped :
  forall (env : Env) (s : State) (data : jsstring),
    audioContextOutRef s = None ->
    handle_event env (Message (audio_msg data)) s = mkRun (Done tt) s [].
Proof.
  intros env s data H. cbn [handle_event]. unfold onmessage, audio_msg; cbn.
  rewrite !after_nil. destruct (truthy data); [|reflexivity].
  unfold bind at 1. unfold enqueue_audio. rewrite when_ref_run, H. reflexivity.
Qed.

Lemma audio_without_context_dropped_witness :
  audioContextOutRef (final (handle_event garbled ChannelClosed active_state))
  = None
  /\ handle_event garbled (Message (audio_msg (lit "%%%")))
       (final (handle_event garbled ChannelClosed active_state))
     = mkRun (Done tt)
         (final (handle_event garbled ChannelClosed active_state)) [].
Proof.
  split; [reflexivity|].
  exact (@audio_without_context_dropped garbled
           (final (handle_event garbled ChannelClosed active_state))
           (lit "%%%") eq_refl).
Defined.

Lemma audioData_first_inline sc :
  audioData (Some sc)
  = match modelTurn sc with
    | Some parts => first_inline parts
    | None => None
    end.
Proof. reflexivity. Qed.

Lemma first_inline_app pre p post data :
  Forall (fun q => inlineData q = None) pre -> inlineData p = Some data ->
  first_inline (pre ++ p :: post) = Some data.
Proof.
  intros Hpre Hp. unfold first_inline.
  induction Hpre as [|q pre Hq _ IH]; cbn [app find].
  - unfold has_inline at 1. rewrite Hp. exact Hp.
  - unfold has_inline at 1. rewrite Hq. exact IH.
Qed.

(** X11.  Of the parts of a model turn only the first that carries
    inline data is played: the parts before it carry none and are passed
    over, and whatever follows it, audio included, is ignored.  The
    handler does on the whole message what it does on a message with that
    one chunk. *)
Theorem only_first_chunk_played :
  forall (env : Env) (s : State) (pre post : list Part) (p : Part)
         (data : jsstring),
    Forall (fun q => inlineData q = None) pre ->
    inlineData p = Some data ->
    onmessage env (parts_msg (pre ++ p :: post)) s
    = onmessage env (audio_msg data) s.
Proof.
  intros env s pre post p data Hpre Hp.
  unfold onmessage, parts_msg, audio_msg.
  cbn [serverContent toolCall]. rewrite !audioData_first_inline.
  cbn [modelTurn].
  rewrite (@first_inline_app pre p post data Hpre Hp).
  reflexivity.
Qed.

Lemma only_first_chunk_played_witness :
  Forall (fun q => inlineData q = None) [mkPart (Some (lit "hm")) None]
  /\ inlineData (mkPart None (Some (lit "UklGRg=="))) = Some (lit "UklGRg==")
  /\ trace (onmessage studio
              (parts_msg ([mkPart (Some (lit "hm")) None]
                          ++ mkPart None (Some (lit "UklGRg=="))
                             :: [mkPart None (Some (lit "AAAA"))]))
              active_state)
     = [SourceStart 0%nat 0 24000].
Proof.
  assert (Hp : Forall (fun q => inlineData q = None)
                 [mkPart (Some (lit "hm")) None]).
  { repeat constructor. }
  split; [exact Hp|]. split; [reflexivity|].
  rewrite (@only_first_chunk_played studio active_state
             [mkPart (Some (lit "hm")) None]
             [mkPart None (Some (lit "AAAA"))]
             (mkPart None (Some (lit "UklGRg=="))) (lit "UklGRg==")
             Hp eq_refl).
  reflexivity.
Defined.

Lemma schedule_lower cursor chunks k t d :
  nth_error (schedule cursor chunks) k = Some (t, d) -> cursor <= t.
Proof.
  revert cursor k; induction chunks as [|c chunks IH]; intros cursor k H.
  - destruct k; discriminate H.
  - destruct k as [|k]; cbn in H.
    + injection H as <- _. lia.
    + specialize (IH _ _ H). lia.
Qed.

Lemma schedule_apart cursor chunks i j t d t' d' :
  (i < j)%nat ->
  nth_error (schedule cursor chunks) i = Some (t, d) ->
  nth_error (schedule cursor chunks) j = Some (t', d') ->
  t + d <= t'.
Proof.
  revert cursor i j; induction chunks as [|c chunks IH];
    intros cursor i j Hij Hi Hj.
  - destruct i; discriminate Hi.
  - destruct j as [|j]; [lia|]. destruct i as [|i]; cbn in Hi, Hj.
    + injection Hi as <- <-. exact (@schedule_lower _ _ _ _ _ Hj).
    + eapply (IH _ i j); [lia | exact Hi | exact Hj].
Qed.

(** X12.  No two chunks of a run of enqueues overlap, however far apart
    in the run: a chunk enqueued later starts no earlier than any chunk
    enqueued before it ends. *)
Theorem chunks_never_overlap :
  forall (base : Env) (s : State) (ctx : handle) (chunks : list Chunk)
         (i j : nat) (t d t' d' : N),
    audioContextOutRef s = Some ctx -> audible chunks ->
    (i < j)%nat ->
    nth_error (timetable base chunks s) i = Some (t, d) ->
    nth_error (timetable base chunks s) j = Some (t', d') ->
    t + d <= t'.
Proof.
  intros base s ctx chunks i j t d t' d' Hctx Ha Hij Hi Hj.
  destruct (@timetable_schedule base chunks s ctx Hctx Ha) as [Ht _].
  rewrite Ht in Hi, Hj.
  exact (@schedule_apart _ _ _ _ _ _ _ _ Hij Hi Hj).
Qed.

Lemma chunks_never_overlap_witness :
  audioContextOutRef active_state = Some 3%nat
  /\ audible late_chunks
  /\ (0 < 1)%nat
  /\ nth_error (timetable studio late_chunks active_state) 0 = Some (0, 24000)
  /\ nth_error (timetable studio late_chunks active_state) 1
     = Some (120000, 24000)
  /\ 0 + 24000 <= 120000.
Proof.
  assert (Ha : audible late_chunks) by (repeat constructor; discriminate).
  assert (H01 : (0 < 1)%nat) by lia.
  split; [reflexivity|]. split; [exact Ha|]. split; [exact H01|].
  split; [reflexivity|]. split; [reflexivity|].
  exact (@chunks_never_overlap studio active_state 3%nat late_chunks
           0%nat 1%nat 0 24000 120000 24000 eq_refl Ha H01 eq_refl eq_refl).
Defined.

Lemma schedule_burst cursor chunks :
  Forall (fun c => arrival c <= cursor) chunks ->
  schedule cursor chunks = back_to_back cursor chunks
  /\ end_cursor cursor chunks
     = fold_left (fun t c => t + duration c) chunks cursor.
Proof.
  revert cursor; induction chunks as [|c chunks IH]; intros cursor H.
  - split; reflexivity.
  - inversion H as [|? ? Hc Hrest]; subst.
    cbn [schedule end_cursor back_to_back fold_left].
    replace (N.max cursor (arrival c)) with cursor by lia.
    destruct (IH (cursor + duration c)) as [IHs IHe].
    + eapply Forall_impl; [|exact Hrest]. cbn; intros; lia.
    + rewrite IHs, IHe. split; reflexivity.
Qed.

(** X13.  A burst: when every chunk of a run is enqueued no later than
    the cursor stood before the run, the chunks are played back to back
    from that cursor, each starting exactly where the one before ends,
    and the cursor ends where the last chunk ends: at its former value
    with the durations added to it one after the other, in the order of
    the enqueues. *)
Theorem burst_played_back_to_back :
  forall (base : Env) (s : State) (ctx : handle) (chunks : list Chunk),
    audioContextOutRef s = Some ctx -> audible chunks ->
    Forall (fun c => arrival c <= nextStartTimeRef s) chunks ->
    timetable base chunks s = back_to_back (nextStartTimeRef s) chunks
    /\ nextStartTimeRef
         (final (run_events (map (enqueue_event base) chunks) s))
       = fold_left (fun t c => t + duration c) chunks (nextStartTimeRef s).
Proof.
  intros base s ctx chunks Hctx Ha Hb.
  destruct (@timetable_schedule base chunks s ctx Hctx Ha) as [Ht Hc].
  destruct (@schedule_burst _ _ Hb) as [Hs He].
  rewrite Ht, Hc, Hs, He. split; reflexivity.
Qed.

Lemma burst_played_back_to_back_witness :
  audioContextOutRef active_state = Some 3%nat
  /\ audible scenario_A
  /\ Forall (fun c => arrival c <= nextStartTimeRef active_state) scenario_A
  /\ timetable studio scenario_A active_state = [(0, 12000); (12000, 7200)].
Proof.
  assert (Ha : audible scenario_A) by (repeat constructor; discriminate).
  assert (Hb : Forall (fun c => arrival c <= nextStartTimeRef active_state)
                 scenario_A).
  { repeat constructor; cbn; lia. }
  split; [reflexivity|]. split; [exact Ha|]. split; [exact Hb|].
  exact (proj1 (@burst_played_back_to_back studio active_state 3%nat
                  scenario_A eq_refl Ha Hb)).
Defined.

Lemma onmessage_cursor env m s :
  sc_flag interrupted (serverContent m) = false ->
  nextStartTimeRef s <= nextStartTimeRef (final (onmessage env m s)).
Proof.
  intro Hflag.
  set (P := fun s' : State => nextStartTimeRef s <= nextStartTimeRef s').
  assert (HP : preserves P (onmessage env m)).
  { unfold onmessage. rewrite Hflag.
    apply preserves_bind; [|intros _].
    { apply preserves_when_some. intro calls.
      unfold dispatch_tool_calls, dispatch_call, handleGenerateImage. frame. }
    apply preserves_bind; [|intros _].
    { apply preserves_when_some. intro t. unfold append_user. frame. }
    apply preserves_bind; [|intros _].
    { apply preserves_when_some. intro t. unfold append_model. frame. }
    apply preserves_bind; [|intros _].
    { destruct (sc_flag turnComplete _); [|apply preserves_ret].
      unfold complete_turn. frame. }
    apply preserves_bind; [|intros _; apply preserves_ret].
    apply preserves_when_some. intro data.
    destruct (truthy data); [|apply preserves_ret].
    intros s' H. unfold P in *. rewrite enqueue_audio_cases.
    destruct (audioContextOutRef s'); [|exact H].
    destruct (decodeAudio env data); cbn; lia. }
  apply HP. unfold P. lia.
Qed.

(** X14.  As long as no interruption arrives and the session is not
    stopped, the cursor never moves backwards, whatever else is handled:
    tool calls, transcripts, chunks that decode and chunks that do not,
    ['ended'] events, the dismissal of the image. *)
Theorem cursor_never_backwards :
  forall (evs : list (Env * Event)) (s : State),
    forallb (fun e => keeps_queue (snd e)) evs = true ->
    nextStartTimeRef s <= nextStartTimeRef (final (run_events evs s)).
Proof.
  induction evs as [|[env ev] evs IH]; intros s H.
  - cbn. lia.
  - cbn [forallb snd] in H. apply andb_prop in H. destruct H as [Hev Hevs].
    rewrite run_events_cons, final_after.
    specialize (IH (final (handle_event env ev s)) Hevs).
    assert (Hstep : nextStartTimeRef s
                    <= nextStartTimeRef (final (handle_event env ev s))).
    { destruct ev as [m|source| | | |]; cbn [keeps_queue] in Hev;
        try discriminate Hev; cbn [handle_event].
      - apply onmessage_cursor. apply negb_true_iff in Hev. exact Hev.
      - cbn. lia.
      - cbn. lia. }
    lia.
Qed.

Lemma cursor_never_backwards_witness :
  forallb (fun e => keeps_queue (snd e))
    [(studio, Message (audio_msg (lit "UklGRg==")));
     (garbled, Message (audio_msg (lit "%%%")));
     (studio, Ended 0%nat)] = true
  /\ nextStartTimeRef active_state
     <= nextStartTimeRef
          (final (run_events
                    [(studio, Message (audio_msg (lit "UklGRg==")));
                     (garbled, Message (audio_msg (lit "%%%")));
                     (studio, Ended 0%nat)] active_state)).
Proof.
  split; [reflexivity|].
  exact (@cursor_never_backwards
           [(studio, Message (audio_msg (lit "UklGRg==")));
            (garbled, Message (audio_msg (lit "%%%")));
            (studio, Ended 0%nat)] active_state eq_refl).
Defined.

(* ================================================================= *)
(** ** trim, and what the history holds *)

Lemma trimStart_clean t : starts_clean (trimStart t).
Proof.
  induction t as [|c t IH]; cbn [trimStart]; [exact I|].
  destruct (is_white_space c) eqn:E; [exact IH | exact E].
Qed.

Lemma starts_clean_trimStart t : starts_clean t -> trimStart t = t.
Proof. destruct t as [|c t]; cbn; [reflexivity | intros ->; reflexivity]. Qed.

Lemma trimStart_split t : exists w, t = w ++ trimStart t.
Proof.
  induction t as [|c t [w IH]]; cbn [trimStart].
  - exists []. reflexivity.
  - destruct (is_white_space c).
    + exists (c :: w). cbn. f_equal. exact IH.
    + exists []. reflexivity.
Qed.

Lemma trimEnd_prefix t : exists w, t = trimEnd t ++ w.
Proof.
  unfold trimEnd. destruct (trimStart_split (rev t)) as [w Hw].
  exists (rev w). rewrite <- rev_app_distr, <- Hw, rev_involutive. reflexivity.
Qed.

Lemma starts_clean_prefix (r z : jsstring) :
  starts_clean (r ++ z) -> starts_clean r.
Proof. destruct r; cbn; [intros _; exact I | intro H; exact H]. Qed.

Lemma trim_clean x : starts_clean (trim x) /\ starts_clean (rev (trim x)).
Proof.
  unfold trim. split.
  - destruct (trimEnd_prefix (trimStart x)) as [w Hw].
    apply starts_clean_prefix with (z := w). rewrite <- Hw.
    apply trimStart_clean.
  - unfold trimEnd. rewrite rev_involutive. apply trimStart_clean.
Qed.

Lemma trim_idempotent x : trim (trim x) = trim x.
Proof.
  destruct (trim_clean x) as [Hs He].
  unfold trim at 1. rewrite (starts_clean_trimStart _ Hs).
  unfold trimEnd. rewrite (starts_clean_trimStart _ He).
  apply rev_involutive.
Qed.

Lemma trim_blank t :
  Forall (fun c => is_white_space c = true) t -> trim t = [].
Proof.
  intro H. unfold trim.
  assert (E : trimStart t = []).
  { induction H as [|c t Hc _ IH]; cbn [trimStart]; [reflexivity|].
    rewrite Hc. exact IH. }
  rewrite E. reflexivity.
Qed.

Lemma turn_entries_tidy a b : Forall tidy (turn_entries (trim a) (trim b)).
Proof.
  assert (H : forall r x, truthy (trim x) = true -> tidy (mkEntry r (trim x))).
  { intros r x Hx. destruct (trim_clean x) as [Hs He].
    repeat split; cbn [text]; try assumption.
    - apply trim_idempotent.
    - intro E. rewrite E in Hx. discriminate Hx. }
  unfold turn_entries. apply Forall_app. split.
  - destruct (truthy (trim a)) eqn:E;
      [apply Forall_cons; [apply H, E | constructor] | constructor].
  - destruct (truthy (trim b)) eqn:E;
      [apply Forall_cons; [apply H, E | constructor] | constructor].
Qed.

Lemma Forall_firstn_of {A} (Q : A -> Prop) n l :
  Forall Q l -> Forall Q (firstn n l).
Proof.
  intro H. rewrite <- (firstn_skipn n l) in H.
  apply Forall_app in H. exact (proj1 H).
Qed.

Lemma complete_turn_run s : complete_turn s = mkRun (Done tt) (flushed s) [].
Proof.
  unfold complete_turn, flushed. rewrite get_bind.
  destruct (truthy (trim (fst (transcriptBufferRef s)))
            || truthy (trim (snd (transcriptBufferRef s)))); reflexivity.
Qed.

(** X15.  In every state the component can reach, every entry of the
    history has a text that is not empty, that [trim] leaves as it is,
    and that neither begins nor ends with a white-space character. *)
Theorem history_is_tidy :
  forall s, reachable s -> tidy_history s.
Proof.
  apply reachable_ind_preserved.
  - constructor.
  - intros env ev. apply handle_event_preserves.
    + intro calls.
      unfold dispatch_tool_calls, dispatch_call, handleGenerateImage. frame.
    + intro t. unfold append_user. frame.
    + intro t. unfold append_model. frame.
    + intros s H. rewrite complete_turn_run. cbn [final]. unfold flushed.
      destruct (truthy _ || truthy _); [|exact H].
      unfold tidy_history. cbn [transcripts setTranscriptBuffer setTranscripts].
      unfold push_turn. apply Forall_firstn_of, Forall_app.
      split; [apply turn_entries_tidy | exact H].
    + intro data. unfold enqueue_audio, createBufferSource. frame.
    + unfold interrupt, stop_all, swallow. frame.
    + intros s H. rewrite cleanupSession_final. exact H.
    + intros s H. rewrite startSession_cases.
      destruct (getUserMedia env); [destruct (connect env)|]; exact H.
    + intro source. unfold onended. frame.
    + intros e s H. exact H.
    + intros i s H. exact H.
Qed.

Lemma history_is_tidy_witness :
  reachable
    (final (run_events
              (map fragment_event scenario_B
               ++ [(studio, Message turn_complete_msg)]) initial))
  /\ tidy_history
       (final (run_events
                 (map fragment_event scenario_B
                  ++ [(studio, Message turn_complete_msg)]) initial)).
Proof.
  assert (Hr : reachable
                 (final (run_events
                           (map fragment_event scenario_B
                            ++ [(studio, Message turn_complete_msg)])
                           initial))).
  { apply reachable_run. constructor. }
  split; [exact Hr | exact (history_is_tidy Hr)].
Defined.

(** X16.  A turn whose fragments are white space only, for both roles,
    adds no entry: the turn-completion message leaves the history as it
    was and empties both buffers. *)
Theorem blank_turn_adds_nothing :
  forall (s : State) (frs : list (Env * (Role * jsstring))) (env : Env),
    transcriptBufferRef s = ([], []) ->
    Forall (fun c => is_white_space c = true) (joined user frs) ->
    Forall (fun c => is_white_space c = true) (joined model frs) ->
    let r := run_events
               (map fragment_event frs ++ [(env, Message turn_complete_msg)])
               s in
    transcripts (final r) = transcripts s
    /\ transcriptBufferRef (final r) = ([], []).
Proof.
  intros s frs env Hb Hu Hm r. subst r.
  destruct (turn_flush_general frs env s) as (Ht & Hbuf & _).
  rewrite Hb in Ht. cbn [fst snd app] in Ht.
  rewrite (trim_blank Hu), (trim_blank Hm) in Ht.
  split; [exact Ht | exact Hbuf].
Qed.

Lemma blank_turn_adds_nothing_witness :
  transcriptBufferRef initial = ([], [])
  /\ Forall (fun c => is_white_space c = true)
       (joined user [(studio, (user, [32; 10])); (studio, (model, [9]))])
  /\ Forall (fun c => is_white_space c = true)
       (joined model [(studio, (user, [32; 10])); (studio, (model, [9]))])
  /\ transcripts
       (final (run_events
                 (map fragment_event
                    [(studio, (user, [32; 10])); (studio, (model, [9]))]
                  ++ [(studio, Message turn_complete_msg)]) initial))
     = [].
Proof.
  assert (Hu : Forall (fun c => is_white_space c = true)
                 (joined user
                    [(studio, (user, [32; 10])); (studio, (model, [9]))])).
  { repeat constructor. }
  assert (Hm : Forall (fun c => is_white_space c = true)
                 (joined model
                    [(studio, (user, [32; 10])); (studio, (model, [9]))])).
  { repeat constructor. }
  split; [reflexivity|]. split; [exact Hu|]. split; [exact Hm|].
  exact (proj1 (@blank_turn_adds_nothing initial
                  [(studio, (user, [32; 10])); (studio, (model, [9]))]
                  studio eq_refl Hu Hm)).
Defined.

Lemma onerror_run env s :
  onerror env s
  = mkRun (Done tt) (cleaned (setError (Some interrupted_message) s))
      (ConsoleError (lit "Session Error:") :: cleanup_calls s).
Proof.
  unfold onerror. unfold bind at 1. cbn [emit]. unfold bind at 1. cbn [modify].
  rewrite cleanupSession_run. reflexivity.
Qed.

Lemma non_message_keeps_transcript env ev s :
  is_message ev = false ->
  transcripts (final (handle_event env ev s)) = transcripts s
  /\ transcriptBufferRef (final (handle_event env ev s))
     = transcriptBufferRef s.
Proof.
  intro H. destruct ev as [m|source| | | |]; try discriminate H;
    cbn [handle_event].
  - split; reflexivity.
  - rewrite onerror_run. split; reflexivity.
  - unfold onclose. rewrite cleanupSession_final. split; reflexivity.
  - rewrite get_bind. destruct (isConnecting s); [split; reflexivity|].
    destruct (isActive s).
    + rewrite cleanupSession_final. split; reflexivity.
    + rewrite startSession_cases.
      destruct (getUserMedia env); [destruct (connect env)|];
        split; reflexivity.
  - split; reflexivity.
Qed.

Lemma non_messages_keep_transcript evs s :
  forallb (fun e => negb (is_message (snd e))) evs = true ->
  transcripts (final (run_events evs s)) = transcripts s
  /\ transcriptBufferRef (final (run_events evs s)) = transcriptBufferRef s.
Proof.
  revert s; induction evs as [|[env ev] evs IH]; intros s H.
  - split; reflexivity.
  - cbn [forallb snd] in H. apply andb_prop in H. destruct H as [Hev Hevs].
    apply negb_true_iff in Hev.
    rewrite run_events_cons, final_after.
    destruct (IH (final (handle_event env ev s)) Hevs) as [Ht Hb].
    destruct (@non_message_keeps_transcript env ev s Hev) as [Ht' Hb'].
    rewrite Ht, Hb, Ht', Hb'. split; reflexivity.
Qed.

(** X17.  Stopping, losing or restarting the session does not touch the
    conversation: events other than messages leave the history and both
    turn buffers as they are.  So fragments received before such events
    and fragments received after them are flushed together, as one turn,
    by the next turn-completion message. *)
Theorem turn_survives_restart :
  forall (s : State) (frs1 frs2 : list (Env * (Role * jsstring)))
         (evs : list (Env * Event)) (env : Env),
    transcriptBufferRef s = ([], []) ->
    forallb (fun e => negb (is_message (snd e))) evs = true ->
    let u := trim (joined user frs1 ++ joined user frs2) in
    let m := trim (joined model frs1 ++ joined model frs2) in
    let r := run_events
               (map fragment_event frs1 ++ evs
                ++ map fragment_event frs2
                ++ [(env, Message turn_complete_msg)]) s in
    transcripts (final (run_events evs s)) = transcripts s
    /\ transcriptBufferRef (final (run_events evs s)) = transcriptBufferRef s
    /\ transcripts (final r)
       = (if truthy u || truthy m
          then firstn 30 (turn_entries u m ++ transcripts s)
          else transcripts s).
Proof.
  intros s frs1 frs2 evs env Hb Hevs u m r.
  destruct (@non_messages_keep_transcript evs s Hevs) as [Ht0 Hb0].
  split; [exact Ht0|]. split; [exact Hb0|].
  subst r. rewrite run_events_app, final_after, run_fragments. cbn [final].
  rewrite run_events_app, final_after.
  set (s1 := setTranscriptBuffer _ s).
  destruct (@non_messages_keep_transcript evs s1 Hevs) as [Ht1 Hb1].
  destruct (turn_flush_general frs2 env (final (run_events evs s1)))
    as (Ht & _).
  rewrite Ht, Ht1, Hb1. unfold s1.
  cbn [transcriptBufferRef transcripts setTranscriptBuffer fst snd].
  rewrite Hb. reflexivity.
Qed.

Lemma turn_survives_restart_witness :
  transcriptBufferRef active_state = ([], [])
  /\ forallb (fun e => negb (is_message (snd e)))
       [(studio, ChannelClosed); (studio, ToggleClick)] = true
  /\ transcripts
       (final (run_events
                 (map fragment_event [(studio, (user, [2438; 2478; 2495]))]
                  ++ [(studio, ChannelClosed); (studio, ToggleClick)]
                  ++ map fragment_event
                       [(studio, (user, [32; 2477; 2494; 2482; 2507]))]
                  ++ [(studio, Message turn_complete_msg)]) active_state))
     = [mkEntry user [2438; 2478; 2495; 32; 2477; 2494; 2482; 2507]].
Proof.
  split; [reflexivity|]. split; [reflexivity|].
  exact (proj2 (proj2
           (@turn_survives_restart active_state
              [(studio, (user, [2438; 2478; 2495]))]
              [(studio, (user, [32; 2477; 2494; 2482; 2507]))]
              [(studio, ChannelClosed); (studio, ToggleClick)] studio
              eq_refl eq_refl))).
Defined.

(* ================================================================= *)
(** ** A message is handled field by field *)

Lemma bind_total {B} (c : M unit) (k : unit -> M B) s :
  outcome (c s) = Done tt ->
  bind c k s = after (trace (c s)) (k tt (final (c s))).
Proof.
  unfold bind. destruct (c s) as [[[]|x] s1 t1]; cbn; intro H;
    [reflexivity | discriminate H].
Qed.

Lemma detached_after t (c : M unit) s (r : Run unit) :
  c s = after t r ->
  detached c s = after t (mkRun (Done tt) (final r) (trace r)).
Proof. unfold detached. intros ->. destruct r; reflexivity. Qed.

Lemma detached_done (c : M unit) s :
  outcome (c s) = Done tt -> detached c s = c s.
Proof.
  unfold detached. destruct (c s) as [[[]|x] s1 t1]; cbn; intro H;
    [reflexivity | discriminate H].
Qed.

Lemma detached_run (c : M unit) s :
  detached c s = mkRun (Done tt) (final (c s)) (trace (c s)).
Proof. unfold detached. destruct (c s); reflexivity. Qed.

Lemma run_single env ev s :
  run_events [(env, ev)] s = detached (handle_event env ev) s.
Proof.
  rewrite run_events_cons, run_events_nil, detached_run. cbn [after].
  rewrite app_nil_r. reflexivity.
Qed.

(** One stage of the handler against the part of the message it reads. *)
Lemma stage env (c : M unit) (k : M unit) (part rest : list LiveServerMessage) s :
  outcome (c s) = Done tt ->
  run_events (map (deliver env) part) s = c s ->
  run_events (map (deliver env) rest) (final (c s))
  = detached k (final (c s)) ->
  run_events (map (deliver env) (part ++ rest)) s = detached (c ;; k) s.
Proof.
  intros Hc Hpart Hrest.
  rewrite map_app, run_events_app, Hpart, Hrest.
  rewrite !detached_run, (bind_total c (fun _ => k) s Hc).
  rewrite final_after, trace_after. reflexivity.
Qed.

Lemma absent_stage env s :
  run_events (map (deliver env) []) s = ret tt s.
Proof. reflexivity. Qed.

Lemma present_stage env p (c : M unit) s :
  onmessage env p s = c s -> outcome (c s) = Done tt ->
  run_events (map (deliver env) [p]) s = c s.
Proof.
  intros Hp Hc. cbn [map]. unfold deliver. rewrite run_single.
  cbn [handle_event]. rewrite detached_done; rewrite Hp; [reflexivity|exact Hc].
Qed.

Lemma enqueue_audio_done env data s :
  decodeAudio env data <> None ->
  outcome (enqueue_audio env data s) = Done tt.
Proof.
  intro H. destruct (audioContextOutRef s) as [ctx|] eqn:Hctx.
  - destruct (decodeAudio env data) as [d|] eqn:Hdec; [|contradiction].
    rewrite (@enqueue_audio_run env data s ctx d Hctx Hdec). reflexivity.
  - unfold enqueue_audio. rewrite when_ref_run, Hctx. reflexivity.
Qed.

Lemma onmessage_audio_any env data s :
  outcome ((if truthy data then enqueue_audio env data else ret tt) s)
  = Done tt ->
  onmessage env (audio_msg data) s
  = (if truthy data then enqueue_audio env data else ret tt) s.
Proof.
  intro H. unfold onmessage, audio_msg; cbn. rewrite !after_nil.
  rewrite (bind_total _ (fun _ => ret tt) s H).
  destruct ((if truthy data then enqueue_audio env data else ret tt) s)
    as [o s1 t1]. cbn in *. subst o. rewrite app_nil_r. reflexivity.
Qed.

(** X19.  A message without tool calls that carries several fields of
    server content is handled as the messages carrying one field each
    would be, delivered one after the other in the order input
    transcription, output transcription, turn completion, audio,
    interruption: the same calls are made, in the same order, and the
    same state is reached.  This holds whenever the audio of the message,
    if any, decodes. *)
Theorem message_handled_field_by_field :
  forall (env : Env) (m : LiveServerMessage) (s : State),
    toolCall m = None ->
    (forall data, audioData (serverContent m) = Some data ->
                  decodeAudio env data <> None) ->
    run_events (map (deliver env) (message_parts m)) s
    = run_events [(env, Message m)] s.
Proof.
  intros env m s Htc Hdec. rewrite run_single. cbn [handle_event].
  unfold message_parts, onmessage. cbv zeta. rewrite Htc.
  set (sc := serverContent m) in *.
  apply stage; [reflexivity | reflexivity |].
  cbn [when_some ret final].
  apply stage.
  { destruct (sc_field inputTranscription sc); reflexivity. }
  { destruct (sc_field inputTranscription sc) as [t|]; [|reflexivity].
    apply present_stage; reflexivity. }
  generalize (final (when_some (sc_field inputTranscription sc) append_user s)).
  clear s. intro s.
  apply stage.
  { destruct (sc_field outputTranscription sc); reflexivity. }
  { destruct (sc_field outputTranscription sc) as [t|]; [|reflexivity].
    apply present_stage; reflexivity. }
  generalize (final (when_some (sc_field outputTranscription sc) append_model s)).
  clear s. intro s.
  apply stage.
  { destruct (sc_flag turnComplete sc);
      [rewrite complete_turn_run|]; reflexivity. }
  { destruct (sc_flag turnComplete sc); [|reflexivity].
    apply present_stage;
      [rewrite onmessage_turn_complete, complete_turn_run
      | rewrite complete_turn_run]; reflexivity. }
  generalize (final ((if sc_flag turnComplete sc then complete_turn
                      else ret tt) s)).
  clear s. intro s.
  assert (Haudio : forall data s', audioData sc = Some data ->
            outcome ((if truthy data then enqueue_audio env data else ret tt)
                       s') = Done tt).
  { intros data s' E. destruct (truthy data); [|reflexivity].
    apply enqueue_audio_done, Hdec, E. }
  apply stage.
  { destruct (audioData sc) as [data|] eqn:E; [|reflexivity].
    cbn [when_some]. apply Haudio. reflexivity. }
  { destruct (audioData sc) as [data|] eqn:E; [|reflexivity].
    cbn [when_some].
    apply present_stage; [apply onmessage_audio_any|]; apply Haudio; reflexivity. }
  match goal with |- context [final (?c s)] => generalize (final (c s)) end.
  clear s. intro s.
  rewrite <- (app_nil_r (if sc_flag interrupted sc then _ else _)).
  rewrite map_app, run_events_app. cbn [map].
  rewrite run_events_nil. cbn [after].
  destruct (sc_flag interrupted sc).
  - rewrite (present_stage env interrupt_msg (interrupt env) s).
    + rewrite detached_run, interrupt_run. cbn. rewrite app_nil_r. reflexivity.
    + rewrite onmessage_interrupt, interrupt_run. reflexivity.
    + rewrite interrupt_run. reflexivity.
  - reflexivity.
Qed.

Lemma message_handled_field_by_field_witness :
  toolCall crowded_msg = None
  /\ (forall data, audioData (serverContent crowded_msg) = Some data ->
                   decodeAudio studio data <> None)
  /\ trace (run_events (map (deliver studio) (message_parts crowded_msg))
              active_state)
     = trace (run_events [(studio, Message crowded_msg)] active_state).
Proof.
  assert (H : forall data, audioData (serverContent crowded_msg) = Some data ->
                           decodeAudio studio data <> None).
  { intros data _. discriminate. }
  split; [reflexivity|]. split; [exact H|].
  exact (f_equal (@trace unit)
           (@message_handled_field_by_field studio crowded_msg active_state
              eq_refl H)).
Defined.

(* ================================================================= *)
(** ** The download *)

Lemma lit_inj a b : lit a = lit b -> a = b.
Proof.
  unfold lit. intro H.
  rewrite <- (string_of_list_ascii_of_string a),
          <- (string_of_list_ascii_of_string b).
  f_equal. revert H.
  generalize (list_ascii_of_string a), (list_ascii_of_string b).
  intros l; induction l as [|x l IH]; intros [|y l'] H; cbn [map] in H;
    try discriminate H; [reflexivity|].
  injection H as Hxy Hl. f_equal; [|apply IH, Hl].
  rewrite <- (ascii_N_embedding x), <- (ascii_N_embedding y), Hxy. reflexivity.
Qed.

Lemma decimal_inj n n' : decimal n = decimal n' -> n = n'.
Proof.
  unfold decimal. intro H. apply lit_inj in H.
  apply DecimalN.Unsigned.to_uint_inj.
  pose proof (DecimalString.NilEmpty.usu (N.to_uint n)) as E.
  rewrite H, DecimalString.NilEmpty.usu in E. injection E as E. symmetry. exact E.
Qed.

(** X20.  Two downloads made at different milliseconds get different
    file names: the name of line 130 determines the reading of the clock
    it was built from. *)
Theorem download_names_differ :
  forall t t' : N, t <> t' -> download_name t <> download_name t'.
Proof.
  intros t t' Hne H. apply Hne. unfold download_name in H.
  apply app_inv_head, app_inv_tail in H. apply decimal_inj, H.
Qed.

Lemma download_names_differ_witness :
  1700000000000 <> 1700000000001
  /\ download_name 1700000000000 <> download_name 1700000000001.
Proof.
  assert (H : 1700000000000 <> 1700000000001) by discriminate.
  split; [exact H | exact (download_names_differ H)].
Defined.

(** X21.  What is downloaded is what the tool stored: after a
    [generateImage] call that the service answers with an image, a
    download makes one link whose target is the PNG data URL of the first
    inline-data part, clicks it once and takes it out of the document
    again; once the image is dismissed, a download does nothing. *)
Theorem download_follows_artifact :
  forall (env env' : Env) (s : State) (fc : FunctionCall)
         (pre post : list Part) (p : Part) (data : jsstring)
         (others : list (list Part)) (dateNow : N),
    fc_name fc = generateImage_name ->
    generateContent env (fc_prompt fc)
    = GenResponse ((pre ++ p :: post) :: others) ->
    Forall (fun q => inlineData q = None) pre ->
    inlineData p = Some data ->
    let s1 := final (handle_event env (Message (tool_msg [fc])) s) in
    let s2 := final (handle_event env' DismissClick s1) in
    downloadImage dateNow s1
    = [CreateAnchor; SetHref (data_url data);
       SetDownload (download_name dateNow);
       AppendToBody; ClickLink; RemoveFromBody]
    /\ downloadImage dateNow s2 = [].
Proof.
  intros env env' s fc pre post p data others dateNow Hname Hgen Hpre Hp s1 s2.
  assert (E : generatedImage s1 = Some (data_url data)).
  { subst s1. cbn [handle_event].
    rewrite onmessage_tool, dispatch_one, dispatch_call_run.
    unfold is_generateImage. rewrite Hname.
    change (JsString.eqb generateImage_name generateImage_name) with true.
    cbv iota. cbn [final generatedImage setIsGeneratingImage setGeneratedImage].
    unfold image_after. rewrite Hgen.
    rewrite (@first_inline_app pre p post data Hpre Hp). reflexivity. }
  split.
  - unfold downloadImage. rewrite E. reflexivity.
  - reflexivity.
Qed.

Lemma download_follows_artifact_witness :
  fc_name cat_call = generateImage_name
  /\ generateContent painter (fc_prompt cat_call)
     = GenResponse
         (([mkPart (Some (lit "a cat")) None]
           ++ mkPart None (Some (lit "iVBORw0KGgo="))
              :: [mkPart None (Some (lit "R0lGODlh"))]) :: [])
  /\ Forall (fun q => inlineData q = None) [mkPart (Some (lit "a cat")) None]
  /\ downloadImage 1700000000000
       (final (handle_event painter (Message (tool_msg [cat_call]))
                 active_state))
     = [CreateAnchor; SetHref (lit "data:image/png;base64,iVBORw0KGgo=");
        SetDownload (lit "manoshi-artwork-1700000000000.png");
        AppendToBody; ClickLink; RemoveFromBody].
Proof.
  assert (Hpre : Forall (fun q => inlineData q = None)
                   [mkPart (Some (lit "a cat")) None]).
  { repeat constructor. }
  split; [reflexivity|]. split; [reflexivity|]. split; [exact Hpre|].
  exact (proj1 (@download_follows_artifact painter painter active_state
                  cat_call [mkPart (Some (lit "a cat")) None]
                  [mkPart None (Some (lit "R0lGODlh"))]
                  (mkPart None (Some (lit "iVBORw0KGgo=")))
                  (lit "iVBORw0KGgo=") [] 1700000000000
                  eq_refl eq_refl Hpre eq_refl)).
Defined.

(* ================================================================= *)
(** ** A close event while startSession waits for the connection *)

Lemma start_acquire_granted env s stream :
  getUserMedia env = Some stream ->
  start_acquire env s
  = mkRun (Done tt)
      (setAudioContextOut (Some (snd (newContexts env)))
         (setAudioContextIn (Some (fst (newContexts env)))
            (setStreamRef (Some stream)
               (setError None (setIsConnecting true s)))))
      [MicOpen stream; ContextOpen (fst (newContexts env));
       ContextOpen (snd (newContexts env))].
Proof.
  intro Hm. unfold start_acquire, await_option. rewrite Hm.
  destruct s; reflexivity.
Qed.

Lemma start_resume_granted env s ch :
  connect env = Some ch ->
  start_resume env s
  = mkRun (Done tt)
      (setSessionRef (Some ch) (setIsActive true (setIsConnecting false s)))
      [ChannelOpen ch].
Proof.
  intro Hc. unfold start_resume, start_connect, await_option. rewrite Hc.
  destruct s; reflexivity.
Qed.

(** X6.  [startSession] waits on line 260 for the connection, with the
    stream and both contexts already in the refs.  With nothing handled
    in between, the part before the wait followed by the part after it is
    [startSession].  When a close event of the channel (of an earlier
    session, say) is handled during the wait, [cleanupSession] stops the
    stream and closes the contexts just acquired and empties their refs;
    the connection then opens, and the session ends up active and holding
    the channel, with no stream and no audio context in its refs. *)
Theorem close_while_connecting_strands_session :
  forall (env env' : Env) (s : State) (stream ch : handle),
    getUserMedia env = Some stream -> connect env = Some ch ->
    let r1 := start_acquire env s in
    let r2 := handle_event env' ChannelClosed (final r1) in
    let r3 := start_resume env (final r2) in
    outcome r1 = Done tt
    /\ startSession env s = after (trace r1) (start_resume env (final r1))
    /\ trace r2
       = opt_call ChannelClose (sessionRef s)
         ++ [TrackStop stream; ContextClose (fst (newContexts env));
             ContextClose (snd (newContexts env))]
         ++ map SourceStop (sourcesRef s)
    /\ outcome r3 = Done tt
    /\ trace r3 = [ChannelOpen ch]
    /\ isActive (final r3) = true
    /\ isConnecting (final r3) = false
    /\ sessionRef (final r3) = Some ch
    /\ streamRef (final r3) = None
    /\ audioContextInRef (final r3) = None
    /\ audioContextOutRef (final r3) = None.
Proof.
  intros env env' s stream ch Hm Hc r1 r2 r3. subst r3 r2 r1.
  rewrite (@start_acquire_granted env s stream Hm). cbn [outcome final trace].
  split; [reflexivity|]. split.
  { rewrite (@startSession_granted env s stream ch Hm Hc).
    rewrite (@start_resume_granted env _ ch Hc). destruct s; reflexivity. }
  cbn [handle_event]. unfold onclose. rewrite cleanupSession_run.
  cbn [final trace]. rewrite (@start_resume_granted env _ ch Hc).
  cbn [outcome final trace].
  split; [unfold cleanup_calls; destruct s; reflexivity|].
  repeat split.
Qed.

Lemma close_while_connecting_strands_session_witness :
  getUserMedia studio = Some 1%nat
  /\ connect studio = Some 4%nat
  /\ (isActive
        (final (start_resume studio
                  (final (handle_event studio ChannelClosed
                            (final (start_acquire studio initial)))))),
      streamRef
        (final (start_resume studio
                  (final (handle_event studio ChannelClosed
                            (final (start_acquire studio initial)))))))
     = (true, None).
Proof.
  split; [reflexivity|]. split; [reflexivity|].
  pose proof (@close_while_connecting_strands_session studio studio initial
                1%nat 4%nat eq_refl eq_refl) as H.
  cbv zeta in H.
  destruct H as (_ & _ & _ & _ & _ & Ha & _ & _ & Hs & _).
  exact (f_equal2 pair Ha Hs).
Defined.
